(** * Metadata backfill script ([scripts/migrate_metadata.py])

    A shallow embedding of the migration script and the properties of its
    four parts: the URL parser ([extract_image_id]), the metadata fetcher
    ([get_cloudflare_metadata]), the batch processor ([process_batch]) and
    the driver ([migrate_metadata]).

    Modelling conventions.
    - Python values that travel through the script (JSON payloads, [None],
      documents) are values of [json]; [None] is [JNull].
    - Everything outside the repository is gathered in a record [env]: the
      process environment (credentials), [urllib.parse.urlparse], the remote
      API, the clock, the iteration order of a Python [set] and the storage
      faults of [insert_one].  Its oracles are indexed by a logical clock
      ([tick]) so that the outside world may answer differently each time.
    - The script runs in a state-and-exception monad [M] over [world]: the two
      collections, the trace of observable events (log lines, HTTP requests,
      sleeps) and the logical clock.
    - The storage handle is taken to be awaitable, as [process_batch] uses
      it; [find_one] is a read of the in-memory collection and does not
      fail.
    - [asyncio.gather] is modelled by running the tasks in the order of the
      task list.  The tasks share no state and their results are returned
      in task order, so only the interleaving of their trace events is
      abstracted. *)

From Stdlib Require Import String Ascii List ZArith Bool Arith Lia ZifyNat.
Import ListNotations.
Local Open Scope string_scope.
Local Open Scope list_scope.

(** [lia] reads the divisions by the batch size. *)
Ltac Zify.zify_post_hook ::= Z.div_mod_to_equations.

(** * The script *)

(** ** Python values *)

Set Warnings "-register-all".

(** JSON values, and [None] as [JNull]; numbers are kept as integers. *)
Inductive json : Type :=
| JNull
| JBool (b : bool)
| JNum (n : Z)
| JStr (s : string)
| JArr (items : list json)
| JObj (fields : list (string * json)).

(** A Python [dict] with string keys, in insertion order. *)
Definition dict := list (string * json).

(** Python truthiness ([if v:], [not v]). *)
Definition truthy (v : json) : bool :=
  match v with
  | JNull => false
  | JBool b => b
  | JNum n => negb (n =? 0)%Z
  | JStr s => negb (s =? "")
  | JArr items => match items with [] => false | _ => true end
  | JObj fields => match fields with [] => false | _ => true end
  end.

Fixpoint dict_get (k : string) (d : dict) : option json :=
  match d with
  | [] => None
  | (k', v) :: rest => if k' =? k then Some v else dict_get k rest
  end.

(** [d[k] = v]: an existing key keeps its position, a new key goes last. *)
Fixpoint dict_set (k : string) (v : json) (d : dict) : dict :=
  match d with
  | [] => [(k, v)]
  | (k', v') :: rest =>
      if k' =? k then (k', v) :: rest else (k', v') :: dict_set k v rest
  end.

(** [{**d, **extra}]: the items of [extra] are set one by one, left to right. *)
Definition dict_update (d extra : dict) : dict :=
  fold_left (fun acc kv => dict_set (fst kv) (snd kv) acc) extra d.

(** [str.split(sep)] for a one-character separator. *)
Fixpoint split_on (sep : ascii) (s : string) : list string :=
  match s with
  | EmptyString => [EmptyString]
  | String c rest =>
      if Ascii.eqb c sep then EmptyString :: split_on sep rest
      else match split_on sep rest with
           | h :: t => String c h :: t
           | [] => [String c EmptyString]
           end
  end.

(** ** Exceptions and outcomes *)

Inductive exn : Type :=
| ValueError (msg : string)
| TypeError
| AttributeError
| ClientError
| JSONDecodeError
| StorageError.

Inductive outcome (A : Type) : Type :=
| Ret (a : A)
| Raise (e : exn).
Arguments Ret {A} a.
Arguments Raise {A} e.

(** ** Observable events *)

Inductive level : Type := INFO | WARNING | ERROR.

(** One constructor per log line of the script, carrying the values that
    the line interpolates. *)
Inductive log_msg : Type :=
| LogExtractError (url : string) (e : exn)
| LogRateLimit (image_id : string)
| LogFetchStatus (image_id : string) (status : nat)
| LogFetchException (image_id : string) (e : exn)
| LogNoId (image_url : string)
| LogExists (image_id : string)
| LogStored (image_id : option string)
| LogStoreError (image_id : option string) (e : exn)
| LogFoundCars (n : nat)
| LogFoundImages (n : nat)
| LogProcessingBatch (batch_num total_batches : nat)
| LogWaiting (delay : nat)
| LogCompleted
| LogFailed (e : exn)
| LogDisconnected.

Inductive event : Type :=
| EvLog (lvl : level) (msg : log_msg)
| EvHttpGet (url : string) (headers : list (string * string))
| EvSleep (seconds : nat)
| EvClose.

(** ** The outside world *)

Inductive http_result : Type :=
| HttpResponse (status : nat) (body : outcome json)
| HttpFault (e : exn).

(** The [images] field of a parent record. *)
Inductive images_field : Type :=
| ImagesMissing
| ImagesNull
| ImagesList (urls : list string).

Record car : Type := mkCar { car_name : string; images : images_field }.

Record env : Type := mkEnv {
  CLOUDFLARE_ACCOUNT_ID : option string;
  CLOUDFLARE_API_TOKEN : option string;
  (** [urlparse(url).path], or the exception it raises *)
  urlparse_path : string -> outcome string;
  (** answer of the remote API to a GET issued at a logical time *)
  http_get : nat -> string -> list (string * string) -> http_result;
  (** [time.time()] *)
  time_time : nat -> Z;
  (** [list(set(xs))]: the iteration order of the set *)
  list_set : nat -> list string -> list string;
  (** whether [insert_one] of a document fails at a logical time *)
  insert_fails : nat -> dict -> bool
}.

Record world : Type := mkWorld {
  db_cars : list car;
  db_image_metadata : list dict;
  trace : list event;
  tick : nat
}.

(** ** The monad of the script *)

Definition M (A : Type) : Type := world -> outcome A * world.

Definition ret {A} (a : A) : M A := fun w => (Ret a, w).

Definition raise {A} (e : exn) : M A := fun w => (Raise e, w).

Definition bind {A B} (c : M A) (k : A -> M B) : M B :=
  fun w =>
    match c w with
    | (Ret a, w') => k a w'
    | (Raise e, w') => (Raise e, w')
    end.

(** [try: c except Exception as e: h e] *)
Definition try_except {A} (c : M A) (h : exn -> M A) : M A :=
  fun w =>
    match c w with
    | (Ret a, w') => (Ret a, w')
    | (Raise e, w') => h e w'
    end.

(** [try: c finally: f] *)
Definition try_finally {A} (c : M A) (f : M unit) : M A :=
  fun w =>
    match c w with
    | (r, w') =>
        match f w' with
        | (Ret _, w'') => (r, w'')
        | (Raise e, w'') => (Raise e, w'')
        end
    end.

Declare Scope script_scope.
Delimit Scope script_scope with script.
Notation "x <- c1 ;; c2" := (bind c1 (fun x => c2))
  (at level 61, c1 at next level, right associativity) : script_scope.
Notation "c1 ;; c2" := (bind c1 (fun _ => c2))
  (at level 61, right associativity) : script_scope.
Local Open Scope script_scope.

Definition emit (e : event) : M unit :=
  fun w => (Ret tt, mkWorld (db_cars w) (db_image_metadata w)
                            (trace w ++ [e]) (tick w)).

Definition logging (lvl : level) (msg : log_msg) : M unit := emit (EvLog lvl msg).

Definition asyncio_sleep (seconds : nat) : M unit := emit (EvSleep seconds).

(** Reads the logical clock and advances it. *)
Definition next_tick : M nat :=
  fun w => (Ret (tick w), mkWorld (db_cars w) (db_image_metadata w)
                                  (trace w) (S (tick w))).

(** Lifts a pure outcome (a library call that may raise). *)
Definition lift {A} (o : outcome A) : M A := fun w => (o, w).

(** ** Configuration *)

Definition BATCH_SIZE : nat := 3.
Definition DELAY : nat := 1.

(** ** URL parser *)

(** The body of the [try] block of [extract_image_id]; falling out of the
    [if] is [None]. *)
Definition extract_image_id_body (E : env) (url : string) : outcome (option string) :=
  match urlparse_path E url with
  | Raise e => Raise e
  | Ret path =>
      let parts := split_on "/"%char path in
      if (5 <=? length parts)%nat then Ret (nth_error parts 4) else Ret None
  end.

Definition extract_image_id (E : env) (url : string) : M (option string) :=
  try_except (lift (extract_image_id_body E url))
             (fun e => logging ERROR (LogExtractError url e);; ret None).

(** The identifier a URL yields, as a pure function. *)
Definition image_id_of (E : env) (url : string) : option string :=
  match extract_image_id_body E url with
  | Ret r => r
  | Raise _ => None
  end.

(** ** Metadata fetcher *)

(** [not v] is false exactly on a non-empty string: [os.getenv] gives
    [None] for a variable that is not set. *)
Definition is_set (v : option string) : bool :=
  match v with
  | Some s => negb (s =? "")
  | None => false
  end.

(** An f-string field [{v}]. *)
Definition format_opt (v : option string) : string :=
  match v with
  | Some s => s
  | None => "None"
  end.

Definition api_url (E : env) (image_id : string) : string :=
  ("https://api.cloudflare.com/client/v4/accounts/"
     ++ format_opt (CLOUDFLARE_ACCOUNT_ID E) ++ "/images/v1/" ++ image_id)%string.

Definition api_headers (E : env) : list (string * string) :=
  [("Authorization", ("Bearer " ++ format_opt (CLOUDFLARE_API_TOKEN E))%string);
   ("Content-Type", "application/json")].

(** [v.get(k, default)]: only a mapping has [get]. *)
Definition py_get (v : json) (k : string) (default : json) : outcome json :=
  match v with
  | JObj fields =>
      Ret (match dict_get k fields with Some x => x | None => default end)
  | _ => Raise AttributeError
  end.

(** [session.get(url, headers=headers)]: one outbound request. *)
Definition session_get (E : env) (url : string) (headers : list (string * string))
  : M (nat * outcome json) :=
  t <- next_tick;;
  emit (EvHttpGet url headers);;
  match http_get E t url headers with
  | HttpResponse status body => ret (status, body)
  | HttpFault e => raise e
  end.

Definition get_cloudflare_metadata (E : env) (image_id : string) : M json :=
  if negb (is_set (CLOUDFLARE_ACCOUNT_ID E)) || negb (is_set (CLOUDFLARE_API_TOKEN E))
  then raise (ValueError "Cloudflare credentials not set")
  else
    let url := api_url E image_id in
    let headers := api_headers E in
    try_except
      (response <- session_get E url headers;;
       if (fst response =? 200)%nat then
         data <- lift (snd response);;
         success <- lift (py_get data "success" JNull);;
         if truthy success then
           result <- lift (py_get data "result" (JObj []));;
           metadata <- lift (py_get result "metadata" (JObj []));;
           ret metadata
         else ret JNull
       else if (fst response =? 429)%nat then
         logging WARNING (LogRateLimit image_id);;
         asyncio_sleep 5;;
         ret JNull
       else
         logging ERROR (LogFetchStatus image_id (fst response));;
         ret JNull)
      (fun e => logging ERROR (LogFetchException image_id e);; ret JNull).

(** ** Storage *)

(** The filter [{'imageId': image_id}]. *)
Definition matches_image_id (image_id : string) (doc : dict) : bool :=
  match dict_get "imageId" doc with
  | Some (JStr s) => s =? image_id
  | _ => false
  end.

Definition find_one (image_id : string) : M (option dict) :=
  fun w => (Ret (find (matches_image_id image_id) (db_image_metadata w)), w).

(** The write of the script: one more document in the collection. *)
Definition store_append (doc : dict) : M unit :=
  fun w => (Ret tt, mkWorld (db_cars w) (db_image_metadata w ++ [doc])
                            (trace w) (tick w)).

Definition insert_one (E : env) (doc : dict) : M unit :=
  t <- next_tick;;
  if insert_fails E t doc then raise StorageError
  else store_append doc.

Definition time_now (E : env) : M json :=
  t <- next_tick;; ret (JNum (time_time E t)).

Definition py_opt_str (o : option string) : json :=
  match o with
  | Some s => JStr s
  | None => JNull
  end.

(** The document literal
    [{'imageId': image_id, **metadata, 'createdAt': .., 'updatedAt': ..}],
    evaluated left to right; [**metadata] needs a mapping. *)
Definition new_record (E : env) (image_id : option string) (metadata : json) : M dict :=
  match metadata with
  | JObj fields =>
      createdAt <- time_now E;;
      updatedAt <- time_now E;;
      ret (dict_set "updatedAt" updatedAt
             (dict_set "createdAt" createdAt
                (dict_update [("imageId", py_opt_str image_id)] fields)))
  | _ => raise TypeError
  end.

(** ** Batch processor *)

(** Truthiness of what [find_one] returned. *)
Definition found (existing : option dict) : bool :=
  match existing with
  | Some doc => truthy (JObj doc)
  | None => false
  end.

(** First loop of [process_batch]: the identifiers for which a fetch task
    is created, in batch order. *)
Fixpoint collect_tasks (E : env) (batch : list string) : M (list string) :=
  match batch with
  | [] => ret []
  | image_url :: rest =>
      image_id <- extract_image_id E image_url;;
      if negb (truthy (py_opt_str image_id)) then
        logging WARNING (LogNoId image_url);;
        collect_tasks E rest
      else
        let id := format_opt image_id in
        existing <- find_one id;;
        if found existing then
          logging INFO (LogExists id);;
          collect_tasks E rest
        else
          tasks <- collect_tasks E rest;;
          ret (id :: tasks)
  end.

(** [asyncio.gather] over the task list: the results in task order; an
    exception of a task propagates. *)
Fixpoint gather (E : env) (tasks : list string) : M (list json) :=
  match tasks with
  | [] => ret []
  | image_id :: rest =>
      r <- get_cloudflare_metadata E image_id;;
      rs <- gather E rest;;
      ret (r :: rs)
  end.

(** Body of the second loop of [process_batch]. *)
Definition store_result (E : env) (image_url : string) (metadata : json) : M unit :=
  if truthy metadata then
    image_id <- extract_image_id E image_url;;
    try_except
      (doc <- new_record E image_id metadata;;
       insert_one E doc;;
       logging INFO (LogStored image_id))
      (fun e => logging ERROR (LogStoreError image_id e))
  else ret tt.

Fixpoint store_results (E : env) (pairs : list (string * json)) : M unit :=
  match pairs with
  | [] => ret tt
  | (image_url, metadata) :: rest =>
      store_result E image_url metadata;;
      store_results E rest
  end.

Definition process_batch (E : env) (batch : list string) : M unit :=
  tasks <- collect_tasks E batch;;
  match tasks with
  | [] => ret tt
  | _ :: _ =>
      results <- gather E tasks;;
      store_results E (combine batch results)
  end.

(** ** Migration driver *)

(** The query [{'images': {'$exists': True, '$ne': []}}]. *)
Definition has_images (c : car) : bool :=
  match images c with
  | ImagesMissing => false
  | ImagesNull => true
  | ImagesList [] => false
  | ImagesList (_ :: _) => true
  end.

Definition cars_find : M (list car) :=
  fun w => (Ret (filter has_images (db_cars w)), w).

(** [car.get('images', []) or []] *)
Definition car_images (c : car) : list string :=
  match images c with
  | ImagesList urls => urls
  | _ => []
  end.

(** [range(start, stop, step)] for a positive step. *)
Definition range_step (start stop step : nat) : list nat :=
  map (fun k => start + k * step) (seq 0 ((stop - start + step - 1) / step)).

(** [l[i:j]] *)
Definition slice {A} (l : list A) (i j : nat) : list A :=
  firstn (j - i) (skipn i l).

Fixpoint for_each {A} (xs : list A) (body : A -> M unit) : M unit :=
  match xs with
  | [] => ret tt
  | x :: rest => body x;; for_each rest body
  end.

(** Body of the batch loop of [migrate_metadata]. *)
Definition batch_step (E : env) (all_image_urls : list string) (i : nat) : M unit :=
  let batch := slice all_image_urls i (i + BATCH_SIZE) in
  let batch_num := i / BATCH_SIZE + 1 in
  let total_batches := (length all_image_urls + BATCH_SIZE - 1) / BATCH_SIZE in
  logging INFO (LogProcessingBatch batch_num total_batches);;
  process_batch E batch;;
  if (i + BATCH_SIZE <? length all_image_urls)%nat then
    logging INFO (LogWaiting DELAY);;
    asyncio_sleep DELAY
  else ret tt.

Definition process_all (E : env) (all_image_urls : list string) : M unit :=
  for_each (range_step 0 (length all_image_urls) BATCH_SIZE)
           (batch_step E all_image_urls).

Definition migrate_metadata (E : env) : M unit :=
  try_finally
    (try_except
       (cars <- cars_find;;
        logging INFO (LogFoundCars (length cars));;
        t <- next_tick;;
        let all_image_urls := list_set E t (flat_map car_images cars) in
        logging INFO (LogFoundImages (length all_image_urls));;
        process_all E all_image_urls;;
        logging INFO LogCompleted)
       (fun e => logging ERROR (LogFailed e)))
    (emit EvClose;; logging INFO LogDisconnected).

(** * A concrete outside world

    Used to run the script on concrete inputs.  [py_urlparse_path] follows
    [urllib.parse.urlparse] step by step (scheme, network location,
    fragment, query, parameters) on URLs that contain no whitespace and no
    control character. *)

Fixpoint str_find (c : ascii) (s : string) : option nat :=
  match s with
  | EmptyString => None
  | String c' rest =>
      if Ascii.eqb c' c then Some 0
      else match str_find c rest with
           | Some i => Some (S i)
           | None => None
           end
  end.

Fixpoint str_take (n : nat) (s : string) : string :=
  match n, s with
  | S n', String c rest => String c (str_take n' rest)
  | _, _ => EmptyString
  end.

Fixpoint str_drop (n : nat) (s : string) : string :=
  match n, s with
  | S n', String _ rest => str_drop n' rest
  | _, _ => s
  end.

Fixpoint str_forallb (p : ascii -> bool) (s : string) : bool :=
  match s with
  | EmptyString => true
  | String c rest => p c && str_forallb p rest
  end.

Fixpoint str_map (f : ascii -> ascii) (s : string) : string :=
  match s with
  | EmptyString => EmptyString
  | String c rest => String (f c) (str_map f rest)
  end.

Definition between (lo hi : nat) (c : ascii) : bool :=
  let n := nat_of_ascii c in ((lo <=? n) && (n <=? hi))%nat.

Definition is_upper (c : ascii) : bool := between 65 90 c.
Definition is_alpha (c : ascii) : bool := is_upper c || between 97 122 c.
Definition is_digit (c : ascii) : bool := between 48 57 c.

Definition is_scheme_char (c : ascii) : bool :=
  is_alpha c || is_digit c
  || Ascii.eqb c "+" || Ascii.eqb c "-" || Ascii.eqb c ".".

Definition to_lower (c : ascii) : ascii :=
  if is_upper c then ascii_of_nat (nat_of_ascii c + 32) else c.

Definition str_contains (c : ascii) (s : string) : bool :=
  match str_find c s with Some _ => true | None => false end.

(** [s.split(c, 1)[0]] *)
Definition before (c : ascii) (s : string) : string :=
  match str_find c s with
  | Some i => str_take i s
  | None => s
  end.

(** The scheme of a URL and what follows its colon. *)
Definition split_scheme (url : string) : string * string :=
  match str_find ":" url, url with
  | Some (S i), String c0 _ =>
      if is_alpha c0 && str_forallb is_scheme_char (str_take (S i) url)
      then (str_map to_lower (str_take (S i) url), str_drop (S (S i)) url)
      else (EmptyString, url)
  | _, _ => (EmptyString, url)
  end.

(** Index of the first of [/], [?], [#], or the length. *)
Fixpoint netloc_end (s : string) : nat :=
  match s with
  | EmptyString => 0
  | String c rest =>
      if Ascii.eqb c "/" || Ascii.eqb c "?" || Ascii.eqb c "#" then 0
      else S (netloc_end rest)
  end.

Definition split_netloc (url : string) : string * string :=
  if prefix "//" url then
    let r := str_drop 2 url in
    (str_take (netloc_end r) r, str_drop (netloc_end r) r)
  else (EmptyString, url).

Definition uses_params : list string :=
  [""; "ftp"; "hdl"; "prospero"; "http"; "imap"; "https"; "shttp"; "rtsp";
   "rtspu"; "sip"; "sips"; "mms"; "sftp"; "tel"].

(** The path without the parameters of its last segment. *)
Definition strip_params (path : string) : string :=
  let segments := split_on "/" path in
  let last_segment := last segments EmptyString in
  match str_find ";" last_segment with
  | Some i => str_take (String.length path - String.length last_segment + i) path
  | None => path
  end.

Definition py_urlparse_path (url : string) : outcome string :=
  let (scheme, rest) := split_scheme url in
  let (netloc, rest) := split_netloc rest in
  if xorb (str_contains "[" netloc) (str_contains "]" netloc)
  then Raise (ValueError "Invalid IPv6 URL")
  else
    let path := before "?" (before "#" rest) in
    if existsb (String.eqb scheme) uses_params then Ret (strip_params path)
    else Ret path.

(** A world with both credentials set, an API that answers by URL alone,
    a store that accepts every insert, and sets listed without their
    duplicates. *)
Definition mock_env (api : string -> http_result) : env :=
  {| CLOUDFLARE_ACCOUNT_ID := Some "acct";
     CLOUDFLARE_API_TOKEN := Some "token";
     urlparse_path := py_urlparse_path;
     http_get := fun _ url _ => api url;
     time_time := fun t => Z.of_nat t;
     list_set := fun _ xs => nodup string_dec xs;
     insert_fails := fun _ _ => false |}.

Definition empty_world : world :=
  {| db_cars := []; db_image_metadata := []; trace := []; tick := 0 |}.

(** ** Sample inputs *)

Definition url_img1 : string :=
  "https://imagedelivery.net/cdn-cgi/imagedelivery/acct/img1/public".
Definition url_img2 : string :=
  "https://imagedelivery.net/cdn-cgi/imagedelivery/acct/img2/public".
(** A delivery URL without the [/cdn-cgi/imagedelivery] prefix: four parts. *)
Definition url_short : string := "https://imagedelivery.net/acct/img1/public".
(** [urlparse] raises on an unbalanced bracket in the network location. *)
Definition url_malformed : string := "https://[imagedelivery.net/a/b/c/d".

Definition seven_urls : list string :=
  ["/cdn-cgi/imagedelivery/acct/a/public"; "/cdn-cgi/imagedelivery/acct/b/public";
   "/cdn-cgi/imagedelivery/acct/c/public"; "/cdn-cgi/imagedelivery/acct/d/public";
   "/cdn-cgi/imagedelivery/acct/e/public"; "/cdn-cgi/imagedelivery/acct/f/public";
   "/cdn-cgi/imagedelivery/acct/g/public"].

(** The answer [{success: true, result: {metadata: {title: ..}}}]. *)
Definition answer_with_title (title : string) : http_result :=
  HttpResponse 200
    (Ret (JObj [("success", JBool true);
                ("result", JObj [("metadata", JObj [("title", JStr title)])])])).

(** An API that knows every image by the last segment of the request. *)
Definition api_titles (url : string) : http_result :=
  answer_with_title (last (split_on "/" url) "").

Definition api_down (url : string) : http_result := HttpFault ClientError.


(** An API that answers every request with 429. *)
Definition api_rate_limited (url : string) : http_result :=
  HttpResponse 429 (Raise JSONDecodeError).

(** A collection that already holds a record of [img1]. *)
Definition record_img1 : dict := [("imageId", JStr "img1"); ("title", JStr "first")].
Definition world_with_img1 : world :=
  {| db_cars := []; db_image_metadata := [record_img1]; trace := []; tick := 0 |}.


(** Two images in one parent record, one of them listed twice. *)
Definition world_two_images : world :=
  {| db_cars := [mkCar "car" (ImagesList [url_img1; url_img2; url_img1])];
     db_image_metadata := []; trace := []; tick := 0 |}.

(** * Vocabulary of the properties *)

(** ** Runs *)

Definition result_of {A} (c : M A) (w : world) : outcome A := fst (c w).
Definition world_after {A} (c : M A) (w : world) : world := snd (c w).

(** A computation keeps a relation between the world before and after. *)
Definition respects {A} (R : world -> world -> Prop) (c : M A) : Prop :=
  forall w, R w (world_after c w).

(** [evolves P writes w w']: the parent records are the same, the metadata
    collection is the same (or, when [writes], has only grown at its end),
    the clock has not gone back and the trace has grown by events that
    satisfy [P]. *)
Record evolves (P : event -> Prop) (writes : bool) (w w' : world) : Prop := {
  ev_cars : db_cars w' = db_cars w;
  ev_store : exists added, db_image_metadata w' = db_image_metadata w ++ added
                           /\ (writes = false -> added = []);
  ev_tick : tick w <= tick w';
  ev_trace : exists t, trace w' = trace w ++ t /\ Forall P t
}.

Definition any_event (e : event) : Prop := True.

(** The events of a run that took the world from [w] to [w']. *)
Definition new_events (w w' : world) : list event :=
  skipn (length (trace w)) (trace w').

(** ** Events *)

Definition is_get (url : string) (e : event) : bool :=
  match e with
  | EvHttpGet u _ => u =? url
  | _ => false
  end.

Definition is_request (e : event) : bool :=
  match e with
  | EvHttpGet _ _ => true
  | _ => false
  end.


(** Number of events of a trace that satisfy [p]. *)
Definition count_events (p : event -> bool) (t : list event) : nat :=
  length (filter p t).

(** An event that [p] does not count. *)
Definition avoids (p : event -> bool) (e : event) : Prop := p e = false.

Definition not_get (url : string) : event -> Prop := avoids (is_get url).


(** Number of requests for an identifier in a trace. *)
Definition fetches (E : env) (image_id : string) : list event -> nat :=
  count_events (is_get (api_url E image_id)).

(** Number of requests in a trace. *)
Definition requests : list event -> nat := count_events is_request.

(** The trace has grown, by at most [n] events that satisfy [p]. *)
Definition count_bound (p : event -> bool) (n : nat) (w w' : world) : Prop :=
  exists t, trace w' = trace w ++ t /\ count_events p t <= n.

(** The trace has grown, by at most [n] requests for an identifier. *)
Definition fetch_bound (E : env) (image_id : string) : nat -> world -> world -> Prop :=
  count_bound (is_get (api_url E image_id)).

(** ** Answers of the remote API *)

Definition creds_set (E : env) : bool :=
  is_set (CLOUDFLARE_ACCOUNT_ID E) && is_set (CLOUDFLARE_API_TOKEN E).

(** What the fetcher reads in the body of a 200 response. *)
Definition read_metadata (body : outcome json) : outcome json :=
  match body with
  | Raise e => Raise e
  | Ret data =>
      match py_get data "success" JNull with
      | Raise e => Raise e
      | Ret success =>
          if truthy success then
            match py_get data "result" (JObj []) with
            | Raise e => Raise e
            | Ret result => py_get result "metadata" (JObj [])
            end
          else Ret JNull
      end
  end.

(** What the fetcher returns for an answer of the remote API. *)
Definition metadata_of_response (r : http_result) : json :=
  match r with
  | HttpFault _ => JNull
  | HttpResponse status body =>
      if (status =? 200)%nat then
        match read_metadata body with
        | Ret metadata => metadata
        | Raise _ => JNull
        end
      else JNull
  end.

(** The events that follow the request, by answer. *)
Definition response_events (image_id : string) (r : http_result) : list event :=
  match r with
  | HttpFault e => [EvLog ERROR (LogFetchException image_id e)]
  | HttpResponse status body =>
      if (status =? 200)%nat then
        match read_metadata body with
        | Ret _ => []
        | Raise e => [EvLog ERROR (LogFetchException image_id e)]
        end
      else if (status =? 429)%nat then
        [EvLog WARNING (LogRateLimit image_id); EvSleep 5]
      else [EvLog ERROR (LogFetchStatus image_id status)]
  end.


(** ** Tasks and records *)

(** An identifier the first loop accepts: not [None], not empty. *)
Definition usable (image_id : option string) : bool := truthy (py_opt_str image_id).

Definition has_record (store : list dict) (image_id : string) : bool :=
  found (find (matches_image_id image_id) store).

(** The task, if any, that the first loop creates for a URL. *)
Definition task_of (E : env) (store : list dict) (url : string) : list string :=
  if usable (image_id_of E url) then
    if has_record store (format_opt (image_id_of E url)) then []
    else [format_opt (image_id_of E url)]
  else [].

Definition tasks_of (E : env) (store : list dict) (batch : list string) : list string :=
  flat_map (task_of E store) batch.

(** The identifier the first loop uses for a URL. *)
Definition ident (E : env) (url : string) : string := format_opt (image_id_of E url).

(** Whether a URL yields a given identifier. *)
Definition yields (E : env) (image_id : string) (url : string) : bool :=
  match image_id_of E url with
  | Some s => s =? image_id
  | None => false
  end.

(** Number of URLs of a list that yield an identifier. *)
Definition urls_of_id (E : env) (image_id : string) (urls : list string) : nat :=
  length (filter (yields E image_id) urls).

(** Number of records of an identifier in a collection. *)
Definition records_of (store : list dict) (image_id : string) : nat :=
  length (filter (matches_image_id image_id) store).

(** ** The batches of the driver *)

(** The slices [all_image_urls[i:i + BATCH_SIZE]] that the driver's loop
    takes, in loop order. *)
Definition batches (urls : list string) : list (list string) :=
  map (fun i => slice urls i (i + BATCH_SIZE))
      (range_step 0 (length urls) BATCH_SIZE).

(** The driver's loop in the words of its contract: the batches are
    processed one after the other, and after each batch that is not the
    last the run sleeps the inter-batch delay. *)
Fixpoint sequence_batches (E : env) (batch_num total : nat)
    (bs : list (list string)) : M unit :=
  match bs with
  | [] => ret tt
  | batch :: rest =>
      logging INFO (LogProcessingBatch batch_num total);;
      process_batch E batch;;
      match rest with
      | [] => ret tt
      | _ :: _ => logging INFO (LogWaiting DELAY);; asyncio_sleep DELAY
      end;;
      sequence_batches E (S batch_num) total rest
  end.

(** The image URLs of the parent records, before de-duplication. *)
Definition image_urls (w : world) : list string :=
  flat_map car_images (filter has_images (db_cars w)).

(** ** A repeated run *)



(** [list(set(xs))] lists the elements of [xs], each once. *)
Definition set_semantics (E : env) : Prop :=
  forall t xs, NoDup (list_set E t xs) /\ forall x, In x (list_set E t xs) <-> In x xs.



(** A result that has no [imageId] field of its own. *)
Definition keeps_id (metadata : json) : bool :=
  match metadata with
  | JObj fields =>
      match dict_get "imageId" fields with
      | None => true
      | Some _ => false
      end
  | _ => true
  end.




(** ** Further vocabulary *)

(** Number of occurrences of a character in a string. *)
Fixpoint occurrences (c : ascii) (s : string) : nat :=
  match s with
  | EmptyString => 0
  | String c' rest => (if Ascii.eqb c' c then 1 else 0) + occurrences c rest
  end.

Definition is_sleep (e : event) : bool :=
  match e with
  | EvSleep _ => true
  | _ => false
  end.


Definition is_mapping (v : json) : bool :=
  match v with
  | JObj _ => true
  | _ => false
  end.

(** The URLs that the parent records list. *)
Definition listed (cars : list car) (url : string) : Prop :=
  exists c urls, In c cars /\ images c = ImagesList urls /\ In url urls.

(** Parent records with a missing, a null, an empty and a filled list. *)
Definition sample_cars : list car :=
  [mkCar "no field" ImagesMissing; mkCar "null" ImagesNull;
   mkCar "empty" (ImagesList []);
   mkCar "two" (ImagesList [url_img1; url_img2]);
   mkCar "again" (ImagesList [url_img1])].







(** The [success] flag the fetcher reads in a mapping. *)
Definition success_flag (data : dict) : json :=
  match dict_get "success" data with
  | Some v => v
  | None => JNull
  end.

(** How often the fetcher sleeps after an answer. *)
Definition sleeps_after (r : http_result) : nat :=
  match r with
  | HttpResponse status _ => if (status =? 429)%nat then 1 else 0
  | HttpFault _ => 0
  end.

(** The answer [{success: true, result: null}]. *)
Definition api_null_result (url : string) : http_result :=
  HttpResponse 200 (Ret (JObj [("success", JBool true); ("result", JNull)])).

(** The result and the events of one call of the fetcher. *)
Definition fetch_result (E : env) (image_id : string) (w : world) : outcome json :=
  result_of (get_cloudflare_metadata E image_id) w.

Definition fetch_events (E : env) (image_id : string) (w : world) : list event :=
  new_events w (world_after (get_cloudflare_metadata E image_id) w).


(** The log line of a failed identifier extraction, if any. *)
Definition extract_log (E : env) (url : string) : list event :=
  match extract_image_id_body E url with
  | Ret _ => []
  | Raise e => [EvLog ERROR (LogExtractError url e)]
  end.

(** The document that the second loop builds when the clock reads [t]. *)
Definition record_at (E : env) (image_id : option string) (fields : dict) (t : nat) : dict :=
  dict_set "updatedAt" (JNum (time_time E (S t)))
    (dict_set "createdAt" (JNum (time_time E t))
       (dict_update [("imageId", py_opt_str image_id)] fields)).

(** A mapping lists each key once. *)
Definition unique_keys (d : dict) : Prop := NoDup (map fst d).

(** A storage that refuses the documents of one identifier. *)
Definition env_refusing (image_id : string) (api : string -> http_result) : env :=
  {| CLOUDFLARE_ACCOUNT_ID := Some "acct";
     CLOUDFLARE_API_TOKEN := Some "token";
     urlparse_path := py_urlparse_path;
     http_get := fun _ url _ => api url;
     time_time := fun t => Z.of_nat t;
     list_set := fun _ xs => nodup string_dec xs;
     insert_fails := fun _ doc => matches_image_id image_id doc |}.


(** An API whose metadata is a string. *)
Definition api_text (url : string) : http_result :=
  HttpResponse 200
    (Ret (JObj [("success", JBool true);
                ("result", JObj [("metadata", JStr "a caption")])])).

(** * Properties *)

(** ** Reasoning about runs *)

Section Respects.
Variable R : world -> world -> Prop.
Hypothesis R_refl : forall w, R w w.
Hypothesis R_trans : forall w1 w2 w3, R w1 w2 -> R w2 w3 -> R w1 w3.

Lemma respects_ret {A} (a : A) : respects R (ret a).
Proof. intro w. apply R_refl. Qed.

Lemma respects_raise {A} (e : exn) : respects R (@raise A e).
Proof. intro w. apply R_refl. Qed.

Lemma respects_lift {A} (o : outcome A) : respects R (lift o).
Proof. intro w. apply R_refl. Qed.

Lemma respects_bind {A B} (c : M A) (k : A -> M B) :
  respects R c -> (forall a, respects R (k a)) -> respects R (bind c k).
Proof.
  intros Hc Hk w. unfold world_after, bind.
  specialize (Hc w). unfold world_after in Hc.
  destruct (c w) as [[a|e] w1]; simpl in *.
  - eapply R_trans; [exact Hc | apply Hk].
  - exact Hc.
Qed.

Lemma respects_try_except {A} (c : M A) (h : exn -> M A) :
  respects R c -> (forall e, respects R (h e)) -> respects R (try_except c h).
Proof.
  intros Hc Hh w. unfold world_after, try_except.
  specialize (Hc w). unfold world_after in Hc.
  destruct (c w) as [[a|e] w1]; simpl in *.
  - exact Hc.
  - eapply R_trans; [exact Hc | apply Hh].
Qed.

Lemma respects_try_finally {A} (c : M A) (f : M unit) :
  respects R c -> respects R f -> respects R (try_finally c f).
Proof.
  intros Hc Hf w. unfold world_after, try_finally.
  specialize (Hc w). unfold world_after in Hc.
  destruct (c w) as [r w1]; simpl in *.
  specialize (Hf w1). unfold world_after in Hf.
  destruct (f w1) as [[u|e] w2]; simpl in *;
    eapply R_trans; eauto.
Qed.

Lemma respects_for_each {A} (xs : list A) (body : A -> M unit) :
  (forall x, In x xs -> respects R (body x)) -> respects R (for_each xs body).
Proof.
  induction xs as [|x xs IH]; intros Hb; simpl.
  - apply respects_ret.
  - apply respects_bind.
    + apply Hb. now left.
    + intros _. apply IH. intros y Hy. apply Hb. now right.
Qed.
End Respects.

Lemma evolves_refl P b w : evolves P b w w.
Proof.
  split; auto.
  - exists []. now rewrite app_nil_r.
  - exists []. now rewrite app_nil_r.
Qed.

Lemma evolves_trans P b w1 w2 w3 :
  evolves P b w1 w2 -> evolves P b w2 w3 -> evolves P b w1 w3.
Proof.
  intros [c1 (a1 & s1 & n1) k1 (t1 & e1 & f1)] [c2 (a2 & s2 & n2) k2 (t2 & e2 & f2)].
  split.
  - congruence.
  - exists (a1 ++ a2). split.
    + now rewrite s2, s1, app_assoc.
    + intros Hb. now rewrite (n1 Hb), (n2 Hb).
  - lia.
  - exists (t1 ++ t2). split.
    + now rewrite e2, e1, app_assoc.
    + apply Forall_app; auto.
Qed.

Lemma evolves_weaken (P Q : event -> Prop) b w w' :
  (forall e, P e -> Q e) -> evolves P b w w' -> evolves Q true w w'.
Proof.
  intros HPQ [c (a & s & n) k (t & e & f)]. split; auto.
  - exists a. split; [exact s | discriminate].
  - exists t. split; [exact e |]. eapply Forall_impl; eauto.
Qed.

Lemma evolves_writes P w w' : evolves P false w w' -> evolves P true w w'.
Proof. apply evolves_weaken. auto. Qed.

Lemma evolves_store_same P w w' :
  evolves P false w w' -> db_image_metadata w' = db_image_metadata w.
Proof.
  intros [_ (a & s & n) _ _]. rewrite s, (n eq_refl). apply app_nil_r.
Qed.

Section Evolution.
Variable P : event -> Prop.
Variable writes : bool.

Let R := evolves P writes.

Lemma ev_ret {A} (a : A) : respects R (ret a).
Proof. apply respects_ret, evolves_refl. Qed.

Lemma ev_raise {A} (e : exn) : respects R (@raise A e).
Proof. apply respects_raise, evolves_refl. Qed.

Lemma ev_lift {A} (o : outcome A) : respects R (lift o).
Proof. apply respects_lift, evolves_refl. Qed.

Lemma ev_bind {A B} (c : M A) (k : A -> M B) :
  respects R c -> (forall a, respects R (k a)) -> respects R (bind c k).
Proof. apply respects_bind, evolves_trans. Qed.

Lemma ev_try_except {A} (c : M A) (h : exn -> M A) :
  respects R c -> (forall e, respects R (h e)) -> respects R (try_except c h).
Proof. apply respects_try_except, evolves_trans. Qed.

Lemma ev_try_finally {A} (c : M A) (f : M unit) :
  respects R c -> respects R f -> respects R (try_finally c f).
Proof. apply respects_try_finally, evolves_trans. Qed.

Lemma ev_for_each {A} (xs : list A) (body : A -> M unit) :
  (forall x, In x xs -> respects R (body x)) -> respects R (for_each xs body).
Proof. apply respects_for_each; [apply evolves_refl | apply evolves_trans]. Qed.

Lemma ev_emit (e : event) : P e -> respects R (emit e).
Proof.
  intros He w. split; simpl; auto.
  - exists []. now rewrite app_nil_r.
  - exists [e]. split; auto.
Qed.

Lemma ev_next_tick : respects R next_tick.
Proof.
  intros w. split; simpl; auto.
  - exists []. now rewrite app_nil_r.
  - exists []. now rewrite app_nil_r.
Qed.

Lemma ev_find_one (image_id : string) : respects R (find_one image_id).
Proof. intros w. apply evolves_refl. Qed.

Lemma ev_cars_find : respects R cars_find.
Proof. intros w. apply evolves_refl. Qed.

Hypothesis P_log : forall lvl msg, P (EvLog lvl msg).

Lemma ev_logging lvl msg : respects R (logging lvl msg).
Proof. apply ev_emit, P_log. Qed.

Lemma ev_extract_image_id (E : env) (url : string) :
  respects R (extract_image_id E url).
Proof.
  apply ev_try_except; [apply ev_lift |].
  intros e. apply ev_bind; [apply ev_logging | intros; apply ev_ret].
Qed.

Lemma ev_collect_tasks (E : env) (batch : list string) :
  respects R (collect_tasks E batch).
Proof.
  induction batch as [|url rest IH]; simpl.
  - apply ev_ret.
  - apply ev_bind; [apply ev_extract_image_id |].
    intros image_id.
    destruct (negb (truthy (py_opt_str image_id))).
    + apply ev_bind; [apply ev_logging | intros; exact IH].
    + apply ev_bind; [apply ev_find_one |].
      intros existing. destruct (found existing).
      * apply ev_bind; [apply ev_logging | intros; exact IH].
      * apply ev_bind; [exact IH | intros; apply ev_ret].
Qed.

Hypothesis P_sleep : P (EvSleep 5).

Lemma ev_get_cloudflare_metadata (E : env) (image_id : string) :
  P (EvHttpGet (api_url E image_id) (api_headers E)) ->
  respects R (get_cloudflare_metadata E image_id).
Proof.
  intros Hget. unfold get_cloudflare_metadata.
  destruct (_ || _); [apply ev_raise |].
  apply ev_try_except.
  - apply ev_bind.
    + unfold session_get.
      apply ev_bind; [apply ev_next_tick | intros t].
      apply ev_bind; [apply ev_emit, Hget | intros _].
      destruct (http_get _ _ _ _); [apply ev_ret | apply ev_raise].
    + intros response.
      destruct (fst response =? 200)%nat.
      * apply ev_bind; [apply ev_lift | intros data].
        apply ev_bind; [apply ev_lift | intros success].
        destruct (truthy success); [| apply ev_ret].
        apply ev_bind; [apply ev_lift | intros result].
        apply ev_bind; [apply ev_lift | intros metadata].
        apply ev_ret.
      * destruct (fst response =? 429)%nat.
        -- apply ev_bind; [apply ev_logging | intros _].
           apply ev_bind; [apply ev_emit, P_sleep | intros _].
           apply ev_ret.
        -- apply ev_bind; [apply ev_logging | intros _]. apply ev_ret.
  - intros e. apply ev_bind; [apply ev_logging | intros; apply ev_ret].
Qed.

Lemma ev_gather (E : env) (tasks : list string) :
  (forall id, In id tasks -> P (EvHttpGet (api_url E id) (api_headers E))) ->
  respects R (gather E tasks).
Proof.
  induction tasks as [|id rest IH]; intros Hget; simpl.
  - apply ev_ret.
  - apply ev_bind.
    + apply ev_get_cloudflare_metadata, Hget. now left.
    + intros r. apply ev_bind; [| intros; apply ev_ret].
      apply IH. intros id' Hin. apply Hget. now right.
Qed.
End Evolution.

Section Writes.
Variable P : event -> Prop.
Hypothesis P_log : forall lvl msg, P (EvLog lvl msg).

Let R := evolves P true.

Lemma ev_store_append (doc : dict) : respects R (store_append doc).
Proof.
  intros w. split; simpl; auto.
  - exists [doc]. split; [reflexivity | discriminate].
  - exists []. now rewrite app_nil_r.
Qed.

Lemma ev_insert_one (E : env) (doc : dict) : respects R (insert_one E doc).
Proof.
  apply ev_bind; [apply ev_next_tick | intros t].
  destruct (insert_fails E t doc); [apply ev_raise | apply ev_store_append].
Qed.

Lemma ev_new_record (E : env) image_id metadata :
  respects R (new_record E image_id metadata).
Proof.
  destruct metadata; try apply ev_raise. simpl.
  apply ev_bind; [apply ev_bind; [apply ev_next_tick | intros; apply ev_ret] |].
  intros c.
  apply ev_bind; [apply ev_bind; [apply ev_next_tick | intros; apply ev_ret] |].
  intros u. apply ev_ret.
Qed.

Lemma ev_store_result (E : env) image_url metadata :
  respects R (store_result E image_url metadata).
Proof.
  unfold store_result. destruct (truthy metadata); [| apply ev_ret].
  apply ev_bind; [apply ev_extract_image_id, P_log | intros image_id].
  apply ev_try_except.
  - apply ev_bind; [apply ev_new_record | intros doc].
    apply ev_bind; [apply ev_insert_one | intros _].
    apply ev_logging, P_log.
  - intros e. apply ev_logging, P_log.
Qed.

Lemma ev_store_results (E : env) pairs : respects R (store_results E pairs).
Proof.
  induction pairs as [|[image_url metadata] rest IH]; simpl.
  - apply ev_ret.
  - apply ev_bind; [apply ev_store_result | intros _; exact IH].
Qed.
End Writes.

(** *** Equations of the monad *)

Lemma bind_ret_eq {A B} (c : M A) (k : A -> M B) w a w1 :
  c w = (Ret a, w1) -> bind c k w = k a w1.
Proof. intros H. unfold bind. now rewrite H. Qed.

Lemma run_eta {A} (c : M A) w : c w = (result_of c w, world_after c w).
Proof. unfold result_of, world_after. now destruct (c w). Qed.

Lemma bind_ext {A B} (c : M A) (k1 k2 : A -> M B) w :
  (forall a w', k1 a w' = k2 a w') -> bind c k1 w = bind c k2 w.
Proof.
  intros H. unfold bind. destruct (c w) as [[a|e] w']; [apply H | reflexivity].
Qed.

Lemma bind_assoc {A B C} (c : M A) (k : A -> M B) (h : B -> M C) w :
  bind (bind c k) h w = bind c (fun a => bind (k a) h) w.
Proof.
  unfold bind. now destruct (c w) as [[a|e] w'].
Qed.

Lemma new_events_app w w' t : trace w' = trace w ++ t -> new_events w w' = t.
Proof.
  intros H. unfold new_events. rewrite H.
  rewrite skipn_app, skipn_all, Nat.sub_diag. reflexivity.
Qed.

(** *** Counting events *)

Section Counting.
Variable p : event -> bool.

Lemma count_events_app t1 t2 :
  count_events p (t1 ++ t2) = count_events p t1 + count_events p t2.
Proof. unfold count_events. now rewrite filter_app, length_app. Qed.

Lemma count_events_none t : Forall (avoids p) t -> count_events p t = 0.
Proof.
  unfold count_events. induction 1 as [|e t He _ IH]; [reflexivity |].
  simpl. unfold avoids in He. now rewrite He.
Qed.

Lemma count_bound_refl w : count_bound p 0 w w.
Proof. exists []. split; [now rewrite app_nil_r | reflexivity]. Qed.

Lemma count_bound_trans n m w1 w2 w3 :
  count_bound p n w1 w2 -> count_bound p m w2 w3 -> count_bound p (n + m) w1 w3.
Proof.
  intros (t1 & H1 & B1) (t2 & H2 & B2). exists (t1 ++ t2). split.
  - now rewrite H2, H1, app_assoc.
  - rewrite count_events_app. lia.
Qed.

Lemma count_bound_weaken n m w w' :
  n <= m -> count_bound p n w w' -> count_bound p m w w'.
Proof. intros Hnm (t & H & B). exists t. split; [exact H | lia]. Qed.

Lemma count_bound_evolves b w w' :
  evolves (avoids p) b w w' -> count_bound p 0 w w'.
Proof.
  intros [_ _ _ (t & Ht & Hall)]. exists t. split; [exact Ht |].
  now rewrite count_events_none.
Qed.

Lemma count_bound_quiet {A} b (c : M A) w :
  respects (evolves (avoids p) b) c -> count_bound p 0 w (world_after c w).
Proof. intros H. eapply count_bound_evolves, H. Qed.

Lemma count_bound_bind {A B} n m (c : M A) (k : A -> M B) w :
  count_bound p n w (world_after c w) ->
  (forall a w1, count_bound p m w1 (world_after (k a) w1)) ->
  count_bound p (n + m) w (world_after (bind c k) w).
Proof.
  intros Hc Hk. unfold world_after, bind in *.
  destruct (c w) as [[a|e] w1]; cbn [snd] in *.
  - eapply count_bound_trans; [exact Hc | apply Hk].
  - eapply count_bound_weaken; [| exact Hc]. lia.
Qed.

End Counting.

(** ** URL parser *)

Lemma extract_image_id_result E url w :
  result_of (extract_image_id E url) w = Ret (image_id_of E url).
Proof.
  unfold result_of, extract_image_id, try_except, lift, image_id_of.
  now destruct (extract_image_id_body E url).
Qed.

Lemma extract_image_id_eq E url w :
  extract_image_id E url w
  = (Ret (image_id_of E url), world_after (extract_image_id E url) w).
Proof. rewrite <- (extract_image_id_result E url w). apply run_eta. Qed.


Lemma nth_error_fifth {A} (l : list A) (d : A) :
  5 <= length l -> nth_error l 4 = Some (nth 4 l d).
Proof.
  intros H. apply nth_error_nth'. lia.
Qed.

(** C4. Identifier extraction never raises.  When [urlparse] gives a path,
    the result is the element of index 4 of the path split on [/] if the
    split has at least 5 elements and nothing if it has fewer; when
    [urlparse] raises, the result is nothing. *)
Theorem extract_image_id_fifth_segment (E : env) (url : string) (w : world) :
  (exists r, result_of (extract_image_id E url) w = Ret r)
  /\ (forall path, urlparse_path E url = Ret path ->
        5 <= length (split_on "/" path) ->
        result_of (extract_image_id E url) w
        = Ret (Some (nth 4 (split_on "/" path) "")))
  /\ (forall path, urlparse_path E url = Ret path ->
        length (split_on "/" path) < 5 ->
        result_of (extract_image_id E url) w = Ret None)
  /\ (forall e, urlparse_path E url = Raise e ->
        result_of (extract_image_id E url) w = Ret None).
Proof.
  rewrite extract_image_id_result.
  unfold image_id_of, extract_image_id_body.
  split; [eauto |]. split; [| split].
  - intros path -> Hlen.
    apply Nat.leb_le in Hlen as Hb. rewrite Hb.
    now rewrite (nth_error_fifth _ "" Hlen).
  - intros path -> Hlen.
    apply Nat.leb_gt in Hlen. now rewrite Hlen.
  - now intros e ->.
Qed.

Lemma extract_image_id_fifth_segment_witness :
  result_of (extract_image_id (mock_env api_down) url_img1) empty_world
  = Ret (Some "img1")
  /\ result_of (extract_image_id (mock_env api_down) url_short) empty_world
     = Ret None
  /\ result_of (extract_image_id (mock_env api_down) url_malformed) empty_world
     = Ret None.
Proof.
  split; [| split].
  - apply (proj1 (proj2 (extract_image_id_fifth_segment
                           (mock_env api_down) url_img1 empty_world))
             "/cdn-cgi/imagedelivery/acct/img1/public").
    + reflexivity.
    + simpl. lia.
  - apply (proj1 (proj2 (proj2 (extract_image_id_fifth_segment
                                  (mock_env api_down) url_short empty_world)))
             "/acct/img1/public").
    + reflexivity.
    + simpl. lia.
  - apply (proj2 (proj2 (proj2 (extract_image_id_fifth_segment
                                  (mock_env api_down) url_malformed empty_world)))
             (ValueError "Invalid IPv6 URL")).
    reflexivity.
Defined.

(** ** Metadata fetcher *)

Lemma get_cloudflare_metadata_eq E image_id w :
  creds_set E = true ->
  get_cloudflare_metadata E image_id w
  = (Ret (metadata_of_response
            (http_get E (tick w) (api_url E image_id) (api_headers E))),
     mkWorld (db_cars w) (db_image_metadata w)
             (trace w ++ EvHttpGet (api_url E image_id) (api_headers E)
                      :: response_events image_id
                           (http_get E (tick w) (api_url E image_id) (api_headers E)))
             (S (tick w))).
Proof.
  unfold creds_set. intros Hc.
  set (r := http_get E (tick w) (api_url E image_id) (api_headers E)).
  apply andb_prop in Hc as [Ha Ht].
  unfold get_cloudflare_metadata. rewrite Ha, Ht. cbn [negb orb].
  unfold try_except, bind, session_get, bind, next_tick, emit, logging, emit,
    asyncio_sleep, emit, lift, ret, raise.
  cbn [tick trace db_cars db_image_metadata fst snd]. fold r.
  unfold metadata_of_response, response_events, read_metadata.
  destruct r as [status body | e]; cbn [fst snd].
  - destruct (status =? 200)%nat.
    + destruct body as [data | e]; cbn [trace db_cars db_image_metadata tick];
        [| now rewrite <- app_assoc].
      destruct (py_get data "success" JNull) as [success | e];
        cbn [trace db_cars db_image_metadata tick]; [| now rewrite <- app_assoc].
      destruct (truthy success); [| reflexivity].
      destruct (py_get data "result" (JObj [])) as [result | e];
        cbn [trace db_cars db_image_metadata tick]; [| now rewrite <- app_assoc].
      destruct (py_get result "metadata" (JObj [])) as [metadata | e];
        cbn [trace db_cars db_image_metadata tick];
        [reflexivity | now rewrite <- app_assoc].
    + destruct (status =? 429)%nat; cbn [trace db_cars db_image_metadata tick];
        now rewrite <- !app_assoc.
  - cbn [trace db_cars db_image_metadata tick]. now rewrite <- app_assoc.
Qed.

Lemma get_cloudflare_metadata_unset E image_id w :
  creds_set E = false ->
  get_cloudflare_metadata E image_id w
  = (Raise (ValueError "Cloudflare credentials not set"), w).
Proof.
  unfold creds_set, get_cloudflare_metadata. intros Hc.
  apply andb_false_iff in Hc as [-> | ->]; cbn [negb orb]; [reflexivity |].
  now rewrite orb_true_r.
Qed.

(** C8. When the account identifier or the API token is not set (the
    script's own test: [None] or empty), every call of the fetcher raises
    and leaves the world as it was: no request is issued.  When both are
    set, the fetcher returns and does not raise. *)
Theorem get_cloudflare_metadata_credentials (E : env) (image_id : string) (w : world) :
  (is_set (CLOUDFLARE_ACCOUNT_ID E) = false \/ is_set (CLOUDFLARE_API_TOKEN E) = false ->
   get_cloudflare_metadata E image_id w
   = (Raise (ValueError "Cloudflare credentials not set"), w))
  /\ (is_set (CLOUDFLARE_ACCOUNT_ID E) = true ->
      is_set (CLOUDFLARE_API_TOKEN E) = true ->
      exists r, result_of (get_cloudflare_metadata E image_id) w = Ret r).
Proof.
  split.
  - intros H. apply get_cloudflare_metadata_unset.
    unfold creds_set. apply andb_false_iff. exact H.
  - intros Ha Ht. unfold result_of.
    rewrite get_cloudflare_metadata_eq; [simpl; eauto |].
    unfold creds_set. now rewrite Ha, Ht.
Qed.

Lemma get_cloudflare_metadata_credentials_witness :
  get_cloudflare_metadata
    (mkEnv None (Some "token") py_urlparse_path (fun _ url _ => api_titles url)
           (fun t => Z.of_nat t) (fun _ xs => xs) (fun _ _ => false))
    "img1" empty_world
  = (Raise (ValueError "Cloudflare credentials not set"), empty_world)
  /\ exists r,
      result_of (get_cloudflare_metadata (mock_env api_titles) "img1") empty_world
      = Ret r.
Proof.
  split.
  - apply get_cloudflare_metadata_credentials. left. reflexivity.
  - apply get_cloudflare_metadata_credentials; reflexivity.
Defined.


Lemma string_app_inv_head (a b c : string) :
  (a ++ b)%string = (a ++ c)%string -> b = c.
Proof.
  induction a as [|ch a IH]; simpl; intros H; [exact H |].
  injection H as H. now apply IH.
Qed.

Lemma api_url_inj E id1 id2 : api_url E id1 = api_url E id2 -> id1 = id2.
Proof.
  unfold api_url. intros H.
  now repeat apply string_app_inv_head in H.
Qed.

Lemma is_get_api_url E id id' headers :
  is_get (api_url E id) (EvHttpGet (api_url E id') headers) = (id' =? id).
Proof.
  unfold is_get. destruct (id' =? id) eqn:Hid.
  - apply String.eqb_eq in Hid. subst. apply String.eqb_refl.
  - apply String.eqb_neq. intros H. apply api_url_inj in H.
    apply String.eqb_neq in Hid. contradiction.
Qed.

(** ** Batch processor *)

(** *** The first loop *)

Lemma collect_tasks_result_store E batch store w :
  db_image_metadata w = store ->
  result_of (collect_tasks E batch) w = Ret (tasks_of E store batch).
Proof.
  revert w. induction batch as [|url rest IH]; intros w Hw; [reflexivity |].
  unfold result_of. simpl collect_tasks.
  rewrite (bind_ret_eq _ _ _ _ _ (extract_image_id_eq E url w)).
  assert (Hs : db_image_metadata (world_after (extract_image_id E url) w) = store).
  { rewrite <- Hw. apply (evolves_store_same any_event).
    apply ev_extract_image_id. intros; exact I. }
  set (w1 := world_after (extract_image_id E url) w) in *.
  unfold tasks_of. simpl flat_map. unfold task_of at 1. unfold usable.
  destruct (truthy (py_opt_str (image_id_of E url))); cbn [negb].
  - unfold bind at 1. unfold find_one at 1. rewrite Hs.
    fold (has_record store (format_opt (image_id_of E url))).
    destruct (has_record _ _).
    + unfold bind at 1. unfold logging, emit. cbn [app].
      apply IH. exact Hs.
    + unfold bind. specialize (IH w1 Hs). unfold result_of in IH.
      destruct (collect_tasks E rest w1) as [[ts|e] w2]; simpl in *; [|discriminate]. injection IH as ->. reflexivity.
  - unfold bind at 1. unfold logging, emit. cbn [app].
    apply IH. exact Hs.
Qed.

Lemma collect_tasks_result E batch w :
  result_of (collect_tasks E batch) w = Ret (tasks_of E (db_image_metadata w) batch).
Proof. now apply collect_tasks_result_store. Qed.


Lemma has_record_iff store image_id :
  has_record store image_id = true
  <-> exists doc, In doc store /\ dict_get "imageId" doc = Some (JStr image_id).
Proof.
  unfold has_record, found. split.
  - destruct (find _ store) as [doc|] eqn:Hf; [| discriminate].
    intros _. apply find_some in Hf as [Hin Hm]. exists doc. split; [exact Hin |].
    unfold matches_image_id in Hm.
    destruct (dict_get "imageId" doc) as [[| | |s| |]|]; try discriminate.
    apply String.eqb_eq in Hm. now subst.
  - intros (doc & Hin & Hid).
    destruct (find _ store) as [doc'|] eqn:Hf.
    + apply find_some in Hf as [_ Hm]. unfold matches_image_id in Hm.
      destruct doc'; [discriminate | reflexivity].
    + apply (find_none _ _ Hf) in Hin. unfold matches_image_id in Hin.
      rewrite Hid, String.eqb_refl in Hin. discriminate.
Qed.

Lemma in_tasks_of E store batch id :
  In id (tasks_of E store batch) ->
  exists url, In url batch /\ image_id_of E url = Some id
              /\ id <> "" /\ has_record store id = false.
Proof.
  unfold tasks_of. rewrite in_flat_map. intros (url & Hin & Ht).
  exists url. split; [exact Hin |].
  unfold task_of, usable in Ht.
  destruct (image_id_of E url) as [s|]; simpl in Ht; [| contradiction].
  destruct (s =? "") eqn:Hs; simpl in Ht; [contradiction |].
  destruct (has_record store s) eqn:Hr; simpl in Ht; [contradiction |].
  destruct Ht as [<- | []]. repeat split; auto.
  now apply String.eqb_neq.
Qed.

(** The tasks that satisfy [q] are at most the URLs whose identifier
    satisfies it. *)
Lemma filter_tasks_of (q : string -> bool) E store batch :
  length (filter q (tasks_of E store batch))
  <= length (filter (fun url => match image_id_of E url with
                                | Some s => q s
                                | None => false
                                end) batch).
Proof.
  unfold tasks_of. induction batch as [|url rest IH]; [reflexivity |].
  cbn [flat_map filter]. rewrite filter_app, length_app.
  unfold task_of at 1, usable.
  destruct (image_id_of E url) as [s|]; cbn [py_opt_str format_opt truthy];
    [| simpl; lia].
  destruct (negb (s =? "")); [| simpl; destruct (q s); simpl; lia].
  destruct (has_record store s); [simpl; destruct (q s); simpl; lia |].
  cbn [filter]. destruct (q s); simpl; lia.
Qed.

(** *** The fan-out *)



(** *** The second loop *)



Lemma store_result_returns E image_url metadata w :
  result_of (store_result E image_url metadata) w = Ret tt.
Proof.
  unfold result_of, store_result.
  destruct (truthy metadata); [| reflexivity].
  unfold bind at 1. rewrite extract_image_id_eq.
  unfold try_except.
  match goal with |- context [bind ?c ?k ?w1] => destruct (bind c k w1) as [[[]|e] w2] end;
    reflexivity.
Qed.

Lemma store_results_returns E pairs w :
  result_of (store_results E pairs) w = Ret tt.
Proof.
  revert w. induction pairs as [|[url md] rest IH]; intros w; [reflexivity |].
  unfold result_of. simpl. unfold bind.
  pose proof (store_result_returns E url md w) as H. unfold result_of in H.
  destruct (store_result E url md w) as [[[]|e] w1]; simpl in H; [| discriminate].
  apply IH.
Qed.

(** *** The batch *)

Lemma process_batch_evolves (P : event -> Prop) E batch w :
  (forall lvl msg, P (EvLog lvl msg)) ->
  P (EvSleep 5) ->
  (forall id, In id (tasks_of E (db_image_metadata w) batch) ->
              P (EvHttpGet (api_url E id) (api_headers E))) ->
  evolves P true w (world_after (process_batch E batch) w).
Proof.
  intros Hlog Hsleep Hget.
  pose proof (ev_collect_tasks P false Hlog E batch w) as H1.
  pose proof (collect_tasks_result E batch w) as Hr.
  unfold world_after, result_of in *. unfold process_batch, bind.
  destruct (collect_tasks E batch w) as [[tasks|e] w1]; simpl in *;
    [| discriminate].
  injection Hr as ->. apply evolves_writes in H1.
  destruct (tasks_of E (db_image_metadata w) batch) as [|id rest] eqn:Ht;
    [exact H1 |].
  pose proof (ev_gather P true Hlog Hsleep E (id :: rest) Hget w1) as H2.
  unfold world_after in H2.
  destruct (gather E (id :: rest) w1) as [[results|e] w2]; simpl in *.
  - eapply evolves_trans; [exact H1 |].
    eapply evolves_trans; [exact H2 |].
    apply (ev_store_results P Hlog).
  - eapply evolves_trans; eauto.
Qed.


(** C7. An identifier that has a metadata record in the collection when
    the batch starts gets no fetch task in that batch, and the batch
    issues no request for it. *)
Theorem existing_record_is_not_fetched (E : env) (batch : list string)
    (w : world) (image_id : string) :
  (exists doc, In doc (db_image_metadata w)
               /\ dict_get "imageId" doc = Some (JStr image_id)) ->
  result_of (collect_tasks E batch) w
  = Ret (tasks_of E (db_image_metadata w) batch)
  /\ ~ In image_id (tasks_of E (db_image_metadata w) batch)
  /\ exists t,
      trace (world_after (process_batch E batch) w) = trace w ++ t
      /\ forall headers, ~ In (EvHttpGet (api_url E image_id) headers) t.
Proof.
  intros Hrec. apply has_record_iff in Hrec.
  assert (Hnot : ~ In image_id (tasks_of E (db_image_metadata w) batch)).
  { intros Hin. apply in_tasks_of in Hin as (_ & _ & _ & _ & Hno). congruence. }
  split; [apply collect_tasks_result |]. split; [exact Hnot |].
  destruct (process_batch_evolves (not_get (api_url E image_id)) E batch w)
    as [_ _ _ (t & Ht & Hall)].
  - reflexivity.
  - reflexivity.
  - intros id Hin. unfold not_get, avoids, is_get. apply String.eqb_neq.
    intros Heq. apply api_url_inj in Heq. now subst.
  - exists t. split; [exact Ht |].
    intros headers Hin. rewrite Forall_forall in Hall.
    apply Hall in Hin. unfold not_get, avoids, is_get in Hin.
    now rewrite String.eqb_refl in Hin.
Qed.

Lemma existing_record_is_not_fetched_witness :
  ~ In "img1" (tasks_of (mock_env api_titles)
                        (db_image_metadata world_with_img1) [url_img1; url_img2]).
Proof.
  apply (existing_record_is_not_fetched (mock_env api_titles)
           [url_img1; url_img2] world_with_img1 "img1").
  exists record_img1. split; [now left | reflexivity].
Defined.



(** *** Counting the requests *)

Section CountingRequests.
Variable p : event -> bool.
Hypothesis p_log : forall lvl msg, p (EvLog lvl msg) = false.
Hypothesis p_sleep : forall n, p (EvSleep n) = false.
Variable E : env.

(** Whether [p] counts the request of an identifier. *)
Let counted (image_id : string) : bool :=
  p (EvHttpGet (api_url E image_id) (api_headers E)).

Lemma response_events_quiet id r : Forall (avoids p) (response_events id r).
Proof.
  unfold response_events, avoids.
  destruct r as [status body | e]; [| repeat constructor; apply p_log].
  destruct (status =? 200)%nat.
  - destruct (read_metadata body); repeat constructor; apply p_log.
  - destruct (status =? 429)%nat; repeat constructor;
      first [apply p_log | apply p_sleep].
Qed.

Lemma get_cloudflare_metadata_count id w :
  count_bound p (if counted id then 1 else 0) w
              (world_after (get_cloudflare_metadata E id) w).
Proof.
  unfold world_after. destruct (creds_set E) eqn:Hc.
  - rewrite (get_cloudflare_metadata_eq E id w Hc). cbn [snd].
    eexists. split; [reflexivity |].
    change (?x :: ?l) with ([x] ++ l). rewrite count_events_app.
    rewrite (count_events_none p (response_events _ _))
      by apply response_events_quiet.
    unfold count_events. cbn [filter]. fold (counted id).
    destruct (counted id); simpl; lia.
  - rewrite (get_cloudflare_metadata_unset E id w Hc). cbn [snd].
    eapply count_bound_weaken; [| apply count_bound_refl]. lia.
Qed.

Lemma gather_count tasks w :
  count_bound p (length (filter counted tasks)) w (world_after (gather E tasks) w).
Proof.
  revert w. induction tasks as [|id rest IH]; intros w.
  - apply count_bound_refl.
  - cbn [gather filter].
    eapply count_bound_weaken;
      [| apply (count_bound_bind p (if counted id then 1 else 0)
                  (length (filter counted rest)))].
    + destruct (counted id); simpl; lia.
    + apply get_cloudflare_metadata_count.
    + intros r w1.
      eapply count_bound_weaken;
        [| apply (count_bound_bind p (length (filter counted rest)) 0)].
      * lia.
      * apply IH.
      * intros rs w2. apply count_bound_refl.
Qed.

Lemma process_batch_count batch w :
  count_bound p (length (filter counted (tasks_of E (db_image_metadata w) batch)))
              w (world_after (process_batch E batch) w).
Proof.
  assert (Hlog : forall lvl msg, avoids p (EvLog lvl msg)) by exact p_log.
  pose proof (count_bound_quiet p false (collect_tasks E batch) w
                (ev_collect_tasks _ _ Hlog E batch)) as H1.
  pose proof (collect_tasks_result E batch w) as Hr.
  unfold world_after, result_of in *. unfold process_batch, bind.
  destruct (collect_tasks E batch w) as [[tasks|e] w1]; cbn [fst snd] in *;
    [| discriminate].
  injection Hr as ->.
  destruct (tasks_of E (db_image_metadata w) batch) as [|t ts] eqn:Ht.
  - exact H1.
  - pose proof (gather_count (t :: ts) w1) as H2.
    unfold world_after in H2.
    destruct (gather E (t :: ts) w1) as [[results|e] w2]; cbn [snd] in *.
    + pose proof (count_bound_quiet p true
                    (store_results E (combine batch results)) w2
                    (ev_store_results _ Hlog E _)) as H3.
      unfold world_after in H3.
      eapply count_bound_weaken;
        [| eapply count_bound_trans;
           [exact H1 | eapply count_bound_trans; [exact H2 | exact H3]]].
      lia.
    + eapply count_bound_weaken; [| eapply count_bound_trans; eauto]. lia.
Qed.
End CountingRequests.

Lemma process_batch_fetch_bound E id batch w :
  fetch_bound E id (urls_of_id E id batch) w
              (world_after (process_batch E batch) w).
Proof.
  eapply count_bound_weaken;
    [| apply (process_batch_count (is_get (api_url E id))); reflexivity].
  etransitivity; [| apply (filter_tasks_of (fun s => s =? id))].
  apply Nat.eq_le_incl. f_equal. apply filter_ext.
  intros id'. apply is_get_api_url.
Qed.

(** A batch creates at most one task per URL. *)
Lemma length_tasks_of E store batch :
  length (tasks_of E store batch) <= length batch.
Proof.
  unfold tasks_of. induction batch as [|url rest IH]; [reflexivity |].
  cbn [flat_map]. rewrite length_app. unfold task_of at 1.
  destruct (usable _); [destruct (has_record _ _) |]; simpl; lia.
Qed.

(** A batch issues at most one request per URL. *)
Lemma process_batch_request_bound E batch w :
  requests (new_events w (world_after (process_batch E batch) w)) <= length batch.
Proof.
  destruct (process_batch_count is_request (fun _ _ => eq_refl) (fun _ => eq_refl)
              E batch w) as (t & Ht & Hb).
  rewrite (new_events_app _ _ _ Ht). unfold requests.
  etransitivity; [exact Hb |].
  etransitivity; [apply filter_length_le | apply length_tasks_of].
Qed.

(** *** The pairing of results with URLs

    The fan-out returns one result per task, and tasks exist only for the
    URLs that were not skipped; the second loop pairs the results with the
    URLs of the whole batch from its start. *)

(** C1, at a batch whose first URL is skipped.  [img1] has a record, so
    the only task is the one of [img2]; its result is stored under the
    identifier of the first URL, [img1], and [img2] gets no record. *)
Theorem process_batch_result_stored_under_skipped_url :
  let E := mock_env api_titles in
  let batch := [url_img1; url_img2] in
  let w' := world_after (process_batch E batch) world_with_img1 in
  image_id_of E url_img1 = Some "img1"
  /\ image_id_of E url_img2 = Some "img2"
  /\ tasks_of E (db_image_metadata world_with_img1) batch = ["img2"]
  /\ metadata_of_response (api_titles (api_url E "img2"))
     = JObj [("title", JStr "img2")]
  /\ db_image_metadata w'
     = [record_img1;
        [("imageId", JStr "img1"); ("title", JStr "img2");
         ("createdAt", JNum 1); ("updatedAt", JNum 2)]]
  /\ records_of (db_image_metadata w') "img2" = 0.
Proof.
  vm_compute. repeat split; reflexivity.
Qed.

(** C2.  A batch of N URLs creates at most N fetch tasks and issues at
    most N requests.  At the batch above, one request is issued for two
    URLs, none of them for [img1], whose URL was skipped; yet the batch
    inserts a record of [img1], and none for [img2], whose fetch returned
    metadata. *)
Theorem process_batch_inserts_for_unfetched_url :
  (forall E batch w,
      length (tasks_of E (db_image_metadata w) batch) <= length batch
      /\ requests (new_events w (world_after (process_batch E batch) w))
         <= length batch)
  /\ let E := mock_env api_titles in
     let batch := [url_img1; url_img2] in
     let w' := world_after (process_batch E batch) world_with_img1 in
     requests (new_events world_with_img1 w') = 1
     /\ fetches E "img1" (new_events world_with_img1 w') = 0
     /\ records_of (db_image_metadata world_with_img1) "img1" = 1
     /\ records_of (db_image_metadata w') "img1" = 2
     /\ fetches E "img2" (new_events world_with_img1 w') = 1
     /\ records_of (db_image_metadata w') "img2" = 0.
Proof.
  split.
  - intros E batch w.
    split; [apply length_tasks_of | apply process_batch_request_bound].
  - vm_compute. repeat split; reflexivity.
Qed.

(** ** Migration driver *)

Lemma ev_process_batch_any E batch :
  respects (evolves any_event true) (process_batch E batch).
Proof. intros w. apply process_batch_evolves; intros; exact I. Qed.

Lemma ev_batch_step_any E urls i :
  respects (evolves any_event true) (batch_step E urls i).
Proof.
  unfold batch_step.
  apply ev_bind; [apply ev_logging; intros; exact I | intros _].
  apply ev_bind; [apply ev_process_batch_any | intros _].
  destruct (_ <? _)%nat; [| apply ev_ret].
  apply ev_bind; [apply ev_logging; intros; exact I | intros _].
  apply ev_emit. exact I.
Qed.

Lemma ev_migrate_metadata_any E :
  respects (evolves any_event true) (migrate_metadata E).
Proof.
  pose proof (fun lvl msg => I : any_event (EvLog lvl msg)) as Hlog.
  unfold migrate_metadata. apply ev_try_finally.
  - apply ev_try_except.
    + apply ev_bind; [apply ev_cars_find | intros cars].
      apply ev_bind; [apply ev_logging, Hlog | intros _].
      apply ev_bind; [apply ev_next_tick | intros t].
      apply ev_bind; [apply ev_logging, Hlog | intros _].
      apply ev_bind; [| intros _; apply ev_logging, Hlog].
      apply ev_for_each. intros i _. apply ev_batch_step_any.
    + intros e. apply ev_logging, Hlog.
  - apply ev_bind; [apply ev_emit; exact I | intros _].
    apply ev_logging, Hlog.
Qed.

(** C9. A run of the migration leaves the parent records as they were,
    and the metadata collection after the run is the collection before
    it followed by the inserted records: no earlier record is changed or
    removed. *)
Theorem migration_only_inserts (E : env) (w : world) :
  db_cars (world_after (migrate_metadata E) w) = db_cars w
  /\ exists added,
      db_image_metadata (world_after (migrate_metadata E) w)
      = db_image_metadata w ++ added.
Proof.
  destruct (ev_migrate_metadata_any E w) as [Hcars (added & Hstore & _) _ _].
  split; [exact Hcars |]. now exists added.
Qed.


(** *** The loop over the batches *)

Lemma firstn_add_skipn {A} (a b : nat) (l : list A) :
  firstn (a + b) l = firstn a l ++ firstn b (skipn a l).
Proof.
  revert l. induction a as [|a IH]; intros l; [reflexivity |].
  destruct l as [|x l]; simpl.
  - now rewrite firstn_nil.
  - now rewrite IH.
Qed.

Lemma slice_app {A} (l : list A) (i j k : nat) :
  i <= j -> j <= k -> slice l i j ++ slice l j k = slice l i k.
Proof.
  intros Hij Hjk. unfold slice.
  replace (k - i) with ((j - i) + (k - j)) by lia.
  rewrite firstn_add_skipn, skipn_skipn.
  now replace (j - i + i) with j by lia.
Qed.

Lemma concat_slices {A} (l : list A) (j c : nat) :
  concat (map (fun i => slice l i (i + BATCH_SIZE))
              (map (fun k => 0 + k * BATCH_SIZE) (seq j c)))
  = slice l (j * BATCH_SIZE) ((j + c) * BATCH_SIZE).
Proof.
  revert j. induction c as [|c IH]; intros j; cbn [seq map concat].
  - unfold slice. now replace ((j + 0) * BATCH_SIZE - j * BATCH_SIZE) with 0 by lia.
  - rewrite IH.
    replace (0 + j * BATCH_SIZE + BATCH_SIZE) with (S j * BATCH_SIZE) by lia.
    replace (0 + j * BATCH_SIZE) with (j * BATCH_SIZE) by lia.
    rewrite slice_app by lia. f_equal. lia.
Qed.

Lemma concat_batches (urls : list string) : concat (batches urls) = urls.
Proof.
  unfold batches, range_step. rewrite concat_slices.
  unfold slice, BATCH_SIZE. simpl skipn.
  apply firstn_all2. lia.
Qed.

Lemma length_batches (urls : list string) :
  length (batches urls) = (length urls + BATCH_SIZE - 1) / BATCH_SIZE.
Proof.
  unfold batches, range_step. rewrite !length_map, length_seq. f_equal. lia.
Qed.

Lemma for_each_sequence E urls (m j c : nat) :
  m = (length urls + BATCH_SIZE - 1) / BATCH_SIZE ->
  j + c = m ->
  forall w,
    for_each (map (fun k => 0 + k * BATCH_SIZE) (seq j c)) (batch_step E urls) w
    = sequence_batches E (S j) m
        (map (fun i => slice urls i (i + BATCH_SIZE))
             (map (fun k => 0 + k * BATCH_SIZE) (seq j c))) w.
Proof.
  intros Hm. revert j. induction c as [|c IH]; intros j Hj w; [reflexivity |].
  cbn [seq map for_each sequence_batches].
  unfold batch_step at 1.
  replace ((0 + j * BATCH_SIZE) / BATCH_SIZE + 1) with (S j)
    by (unfold BATCH_SIZE; lia).
  rewrite <- Hm.
  assert (Hcond : (0 + j * BATCH_SIZE + BATCH_SIZE <? length urls)%nat
                  = match c with 0 => false | S _ => true end).
  { unfold BATCH_SIZE in *. destruct c.
    - apply Nat.ltb_ge. lia.
    - apply Nat.ltb_lt. lia. }
  rewrite Hcond. rewrite bind_assoc.
  apply bind_ext. intros _ w1. rewrite bind_assoc.
  apply bind_ext. intros _ w2.
  destruct c as [|c]; cbn [seq map].
  - reflexivity.
  - apply bind_ext. intros _ w3. apply (IH (S j)). lia.
Qed.

(** The loop of the driver is the sequence of its batches. *)
Lemma process_all_sequence E urls w :
  process_all E urls w
  = sequence_batches E 1 (length (batches urls)) (batches urls) w.
Proof.
  unfold process_all. rewrite length_batches. unfold batches, range_step.
  apply for_each_sequence; [reflexivity |].
  now rewrite Nat.sub_0_r.
Qed.

(** *** The delays *)





(** *** The requests of a run *)

Lemma urls_of_id_app E id l1 l2 :
  urls_of_id E id (l1 ++ l2) = urls_of_id E id l1 + urls_of_id E id l2.
Proof. unfold urls_of_id. now rewrite filter_app, length_app. Qed.

Lemma sequence_batches_fetch_bound E id bs :
  forall batch_num total w,
    fetch_bound E id (urls_of_id E id (concat bs)) w
                (world_after (sequence_batches E batch_num total bs) w).
Proof.
  set (p := is_get (api_url E id)).
  assert (Hlog : forall lvl msg, avoids p (EvLog lvl msg)) by reflexivity.
  induction bs as [|batch rest IH]; intros batch_num total w.
  - apply count_bound_refl.
  - cbn [sequence_batches concat]. rewrite urls_of_id_app.
    apply (count_bound_bind p 0).
    { apply (count_bound_quiet p true), ev_logging, Hlog. }
    intros _ w1. apply count_bound_bind; [apply process_batch_fetch_bound |].
    intros _ w2. apply (count_bound_bind p 0); [| intros _ w3; apply IH].
    apply (count_bound_quiet p true).
    destruct rest; [apply ev_ret |].
    apply ev_bind; [apply ev_logging, Hlog | intros _].
    apply ev_emit. reflexivity.
Qed.

Lemma process_all_fetch_bound E id urls w :
  fetch_bound E id (urls_of_id E id urls) w (world_after (process_all E urls) w).
Proof.
  unfold world_after. rewrite process_all_sequence.
  rewrite <- (concat_batches urls) at 1.
  apply sequence_batches_fetch_bound.
Qed.

Lemma NoDup_all_equal {A} (l : list A) (a : A) :
  NoDup l -> (forall x, In x l -> x = a) -> length l <= 1.
Proof.
  intros Hnd Hall. destruct l as [|x [|y l]]; simpl; try lia.
  exfalso. inversion Hnd as [|? ? Hnotin _]; subst. apply Hnotin.
  rewrite (Hall x), (Hall y); simpl; auto.
Qed.

Lemma urls_of_id_unique E id urls url :
  NoDup urls ->
  (forall url', In url' urls -> yields E id url' = true -> url' = url) ->
  urls_of_id E id urls <= 1.
Proof.
  intros Hnd Huniq. unfold urls_of_id.
  apply (NoDup_all_equal _ url).
  - now apply NoDup_filter.
  - intros x Hx. apply filter_In in Hx as [Hin Hy]. now apply Huniq.
Qed.

(** The trace of a run: two log lines, the trace of the driver's loop,
    and the closing log lines. *)
Lemma migrate_metadata_trace E w :
  exists w0 tail,
    trace w0 = trace w
               ++ [EvLog INFO (LogFoundCars (length (filter has_images (db_cars w))));
                   EvLog INFO (LogFoundImages
                                 (length (list_set E (tick w) (image_urls w))))]
    /\ trace (world_after (migrate_metadata E) w)
       = trace (world_after (process_all E (list_set E (tick w) (image_urls w))) w0)
         ++ tail
    /\ Forall (avoids is_request) tail.
Proof.
  set (urls := list_set E (tick w) (image_urls w)).
  exists (mkWorld (db_cars w) (db_image_metadata w)
            ((trace w ++ [EvLog INFO (LogFoundCars (length (filter has_images (db_cars w))))])
               ++ [EvLog INFO (LogFoundImages (length urls))])
            (S (tick w))).
  unfold world_after, migrate_metadata, try_finally, try_except.
  unfold bind at 1. unfold cars_find at 1.
  unfold bind at 1. unfold logging at 1, emit at 1.
  unfold bind at 1. unfold next_tick at 1. cbn [tick db_cars db_image_metadata trace].
  unfold bind at 1. unfold logging at 1, emit at 1.
  cbn [tick db_cars db_image_metadata trace].
  fold (image_urls w). fold urls.
  unfold bind at 1.
  match goal with |- context [process_all E urls ?w0] =>
    destruct (process_all E urls w0) as [[[]|e] w1] end;
    eexists; (split; [now rewrite <- app_assoc |]);
    cbn [snd trace bind logging emit]; unfold bind, logging, emit;
    cbn [snd trace]; (split; [rewrite <- !app_assoc; reflexivity |]);
    repeat constructor.
Qed.

Lemma avoids_request_get url e : avoids is_request e -> avoids (is_get url) e.
Proof. unfold avoids. destruct e; simpl; congruence. Qed.

Lemma migrate_metadata_fetch_bound E id w :
  fetch_bound E id (urls_of_id E id (list_set E (tick w) (image_urls w))) w
              (world_after (migrate_metadata E) w).
Proof.
  destruct (migrate_metadata_trace E w) as (w0 & tail & H0 & Htail & Hquiet).
  destruct (process_all_fetch_bound E id (list_set E (tick w) (image_urls w)) w0)
    as (t & Ht & Hb).
  exists ([EvLog INFO (LogFoundCars (length (filter has_images (db_cars w))));
           EvLog INFO (LogFoundImages (length (list_set E (tick w) (image_urls w))))]
          ++ t ++ tail).
  split.
  - rewrite Htail, Ht, H0. now rewrite <- !app_assoc.
  - rewrite !count_events_app.
    rewrite (count_events_none _ tail)
      by (eapply Forall_impl; [apply avoids_request_get | exact Hquiet]).
    change (count_events _ [_; _]) with 0. lia.
Qed.

Lemma mock_env_set_semantics api : set_semantics (mock_env api).
Proof.
  intros t xs. split; [apply NoDup_nodup |].
  intros x. apply nodup_In.
Qed.

(** C5. With the credentials set, when the remote API answers 429 the
    fetcher issues its one request, logs a warning, sleeps 5 seconds and
    returns nothing.  Whatever the answers, the requests for an identifier
    during the driver's loop, and during a whole run, are at most as many
    as the URLs of the working set that yield it: no URL is fetched a
    second time.  In a run whose working set is a set, an identifier that
    a single image URL yields is requested at most once. *)
Theorem rate_limited_fetch_is_not_retried (E : env) :
  creds_set E = true ->
  (forall image_id w body,
      http_get E (tick w) (api_url E image_id) (api_headers E)
      = HttpResponse 429 body ->
      result_of (get_cloudflare_metadata E image_id) w = Ret JNull
      /\ new_events w (world_after (get_cloudflare_metadata E image_id) w)
         = [EvHttpGet (api_url E image_id) (api_headers E);
            EvLog WARNING (LogRateLimit image_id);
            EvSleep 5])
  /\ (forall urls image_id w,
        fetches E image_id (new_events w (world_after (process_all E urls) w))
        <= urls_of_id E image_id urls)
  /\ (forall image_id w,
        fetches E image_id (new_events w (world_after (migrate_metadata E) w))
        <= urls_of_id E image_id (list_set E (tick w) (image_urls w)))
  /\ (set_semantics E ->
      forall url image_id w,
        (forall url', In url' (image_urls w) ->
                      yields E image_id url' = true -> url' = url) ->
        fetches E image_id (new_events w (world_after (migrate_metadata E) w))
        <= 1).
Proof.
  intros Hc.
  assert (Hrun : forall image_id w,
             fetches E image_id (new_events w (world_after (migrate_metadata E) w))
             <= urls_of_id E image_id (list_set E (tick w) (image_urls w))).
  { intros image_id w.
    destruct (migrate_metadata_fetch_bound E image_id w) as (t & Ht & Hb).
    now rewrite (new_events_app _ _ _ Ht). }
  split; [| split; [| split; [exact Hrun |]]].
  - intros image_id w body Hresp. unfold result_of, world_after.
    rewrite (get_cloudflare_metadata_eq E image_id w Hc), Hresp. cbn [fst snd].
    split; [reflexivity |].
    now apply new_events_app.
  - intros urls image_id w.
    destruct (process_all_fetch_bound E image_id urls w) as (t & Ht & Hb).
    now rewrite (new_events_app _ _ _ Ht).
  - intros Hset url image_id w Huniq.
    etransitivity; [apply Hrun |].
    destruct (Hset (tick w) (image_urls w)) as [Hnd Hiff].
    apply (urls_of_id_unique E image_id _ url Hnd).
    intros url' Hin. apply Huniq. now apply Hiff.
Qed.

Lemma rate_limited_fetch_is_not_retried_witness :
  result_of (get_cloudflare_metadata (mock_env api_rate_limited) "img1") empty_world
  = Ret JNull
  /\ fetches (mock_env api_rate_limited) "img1"
       (new_events world_two_images
          (world_after (migrate_metadata (mock_env api_rate_limited))
                       world_two_images))
     <= 1.
Proof.
  destruct (rate_limited_fetch_is_not_retried (mock_env api_rate_limited) eq_refl)
    as (Hfetch & _ & _ & Hrun).
  split.
  - apply (Hfetch "img1" empty_world (Raise JSONDecodeError)). reflexivity.
  - apply (Hrun (mock_env_set_semantics _) url_img1 "img1" world_two_images).
    intros url' Hin Hy. simpl in Hin.
    destruct Hin as [<- | [<- | [<- | []]]];
      first [reflexivity | discriminate Hy].
Defined.

(** ** Running the migration again *)

(** *** Documents and records *)

Lemma dict_get_set k k' v d :
  dict_get k (dict_set k' v d) = if k' =? k then Some v else dict_get k d.
Proof.
  induction d as [|[k0 v0] rest IH]; simpl.
  - reflexivity.
  - destruct (k0 =? k') eqn:H0; simpl.
    + apply String.eqb_eq in H0. subst k0. now destruct (k' =? k).
    + rewrite IH. destruct (k0 =? k) eqn:Hk; [| reflexivity].
      apply String.eqb_eq in Hk. subst k0. now rewrite String.eqb_sym, H0.
Qed.

Lemma dict_get_update_other k d extra :
  dict_get k extra = None -> dict_get k (dict_update d extra) = dict_get k d.
Proof.
  unfold dict_update. revert d.
  induction extra as [|[k1 v1] rest IH]; intros d H; simpl in *; [reflexivity |].
  destruct (k1 =? k) eqn:Hk; [discriminate |].
  rewrite IH by exact H. now rewrite dict_get_set, Hk.
Qed.

Lemma records_of_app store1 store2 id :
  records_of (store1 ++ store2) id = records_of store1 id + records_of store2 id.
Proof. unfold records_of. now rewrite filter_app, length_app. Qed.





(** *** What a batch stores *)




Lemma usable_some E url :
  usable (image_id_of E url) = true -> image_id_of E url = Some (ident E url).
Proof.
  unfold usable, ident. destruct (image_id_of E url); [reflexivity | discriminate].
Qed.


Lemma store_results_step E url md rest w :
  world_after (store_results E ((url, md) :: rest)) w
  = world_after (store_results E rest) (world_after (store_result E url md) w).
Proof.
  unfold world_after. cbn [store_results]. unfold bind.
  pose proof (store_result_returns E url md w) as H. unfold result_of in H.
  destruct (store_result E url md w) as [[[]|e] w1]; cbn [fst] in H;
    [reflexivity | discriminate].
Qed.









(** *** What a run stores *)
















(** * Further properties *)

(** ** The working set *)

Lemma car_images_without_images c : has_images c = false -> car_images c = [].
Proof.
  unfold has_images, car_images.
  destruct (images c) as [| |[|u urls]]; intros H; try reflexivity; discriminate.
Qed.

Lemma image_urls_all_cars cars :
  flat_map car_images (filter has_images cars) = flat_map car_images cars.
Proof.
  induction cars as [|c cars IH]; [reflexivity |].
  cbn [filter flat_map]. destruct (has_images c) eqn:Hc.
  - cbn [flat_map]. now rewrite IH.
  - now rewrite (car_images_without_images c Hc), IH.
Qed.

Lemma in_image_urls w url : In url (image_urls w) <-> listed (db_cars w) url.
Proof.
  unfold image_urls, listed. rewrite image_urls_all_cars, in_flat_map. split.
  - intros (c & Hc & Hin). unfold car_images in Hin.
    destruct (images c) as [| |urls] eqn:Hi; try destruct Hin.
    exists c, urls. auto.
  - intros (c & urls & Hc & Hi & Hin). exists c. split; [exact Hc |].
    unfold car_images. now rewrite Hi.
Qed.

(** X1. The query filter of the driver loses no image: the URLs taken
    from the parent records that pass it are the URLs of all parent
    records.  With set semantics the working set lists each URL of the
    parent records exactly once. *)
Theorem working_set_is_every_listed_url (E : env) :
  set_semantics E ->
  forall t w,
    image_urls w = flat_map car_images (db_cars w)
    /\ NoDup (list_set E t (image_urls w))
    /\ forall url, In url (list_set E t (image_urls w)) <-> listed (db_cars w) url.
Proof.
  intros Hset t w. destruct (Hset t (image_urls w)) as [Hnd Hiff].
  split; [apply image_urls_all_cars |]. split; [exact Hnd |].
  intros url. rewrite Hiff. apply in_image_urls.
Qed.

Lemma working_set_is_every_listed_url_witness :
  In url_img2
     (list_set (mock_env api_titles) 0
        (image_urls (mkWorld sample_cars [] [] 0))).
Proof.
  apply (working_set_is_every_listed_url (mock_env api_titles)
           (mock_env_set_semantics api_titles) 0 (mkWorld sample_cars [] [] 0)).
  exists (mkCar "two" (ImagesList [url_img1; url_img2])), [url_img1; url_img2].
  simpl. intuition.
Defined.

(** ** The batches *)

Lemma length_slice {A} (l : list A) (i j : nat) :
  length (slice l i j) = Nat.min (j - i) (length l - i).
Proof. unfold slice. now rewrite length_firstn, length_skipn. Qed.

Lemma nth_batches urls k :
  k < length (batches urls) ->
  nth k (batches urls) [] = slice urls (k * BATCH_SIZE) (k * BATCH_SIZE + BATCH_SIZE).
Proof.
  intros Hk. rewrite length_batches in Hk.
  unfold batches, range_step.
  rewrite Nat.sub_0_r.
  set (m := (length urls + BATCH_SIZE - 1) / BATCH_SIZE) in *.
  rewrite (nth_indep _ [] (slice urls (0 + 0 * BATCH_SIZE) (0 + 0 * BATCH_SIZE + BATCH_SIZE)))
    by now rewrite !length_map, length_seq.
  rewrite (map_nth (fun i => slice urls i (i + BATCH_SIZE))).
  rewrite (map_nth (fun k => 0 + k * BATCH_SIZE)).
  now rewrite seq_nth.
Qed.

(** X2. The driver cuts a working set of n URLs into ceil(n / 3)
    batches; no batch is empty, none has more than 3 URLs, and every batch
    but the last has exactly 3. *)
Theorem batches_sizes (urls : list string) :
  length (batches urls) = (length urls + BATCH_SIZE - 1) / BATCH_SIZE
  /\ (forall k, k < length (batches urls) ->
        1 <= length (nth k (batches urls) []) <= BATCH_SIZE)
  /\ (forall k, S k < length (batches urls) ->
        length (nth k (batches urls) []) = BATCH_SIZE).
Proof.
  split; [apply length_batches |]. split.
  - intros k Hk. rewrite (nth_batches urls k Hk), length_slice.
    rewrite length_batches in Hk. unfold BATCH_SIZE in *. lia.
  - intros k Hk. rewrite (nth_batches urls k) by lia. rewrite length_slice.
    rewrite length_batches in Hk. unfold BATCH_SIZE in *. lia.
Qed.

Lemma batches_sizes_witness :
  length (nth 0 (batches seven_urls) []) = BATCH_SIZE
  /\ 1 <= length (nth 2 (batches seven_urls) []) <= BATCH_SIZE.
Proof.
  destruct (batches_sizes seven_urls) as (_ & Hall & Hfull).
  split; [apply Hfull | apply Hall]; vm_compute; lia.
Defined.



(** ** The requests of a run, in all *)

Lemma process_batch_requests E batch w :
  count_bound is_request (length batch) w (world_after (process_batch E batch) w).
Proof.
  eapply count_bound_weaken;
    [| apply (process_batch_count is_request); reflexivity].
  etransitivity; [apply filter_length_le | apply length_tasks_of].
Qed.

Lemma sequence_batches_requests E bs :
  forall batch_num total w,
    count_bound is_request (length (concat bs)) w
                (world_after (sequence_batches E batch_num total bs) w).
Proof.
  assert (Hlog : forall lvl msg, avoids is_request (EvLog lvl msg)) by reflexivity.
  induction bs as [|batch rest IH]; intros batch_num total w.
  - apply count_bound_refl.
  - cbn [sequence_batches concat]. rewrite length_app.
    apply (count_bound_bind is_request 0).
    { apply (count_bound_quiet is_request true), ev_logging, Hlog. }
    intros _ w1. apply count_bound_bind; [apply process_batch_requests |].
    intros _ w2. apply (count_bound_bind is_request 0); [| intros _ w3; apply IH].
    apply (count_bound_quiet is_request true).
    destruct rest; [apply ev_ret |].
    apply ev_bind; [apply ev_logging, Hlog | intros _].
    apply ev_emit. reflexivity.
Qed.

(** X4. The driver's loop issues at most one request per URL of the
    working set, and so does a whole run; with set semantics a run issues
    no more requests than the parent records list URLs, however often a URL
    is listed. *)
Theorem run_requests_at_most_working_set (E : env) (w : world) :
  (forall urls,
      requests (new_events w (world_after (process_all E urls) w)) <= length urls)
  /\ requests (new_events w (world_after (migrate_metadata E) w))
     <= length (list_set E (tick w) (image_urls w))
  /\ (set_semantics E ->
      requests (new_events w (world_after (migrate_metadata E) w))
      <= length (image_urls w)).
Proof.
  assert (Hloop : forall urls v,
             count_bound is_request (length urls) v (world_after (process_all E urls) v)).
  { intros urls v. unfold world_after. rewrite process_all_sequence.
    rewrite <- (concat_batches urls) at 1. apply sequence_batches_requests. }
  assert (Hrun : requests (new_events w (world_after (migrate_metadata E) w))
                 <= length (list_set E (tick w) (image_urls w))).
  { destruct (migrate_metadata_trace E w) as (w0 & tail & H0 & Htail & Hquiet).
    destruct (Hloop (list_set E (tick w) (image_urls w)) w0) as (t & Ht & Hb).
    rewrite (new_events_app w _
               ([EvLog INFO (LogFoundCars (length (filter has_images (db_cars w))));
                 EvLog INFO (LogFoundImages
                               (length (list_set E (tick w) (image_urls w))))]
                ++ t ++ tail)).
    - unfold requests. rewrite !count_events_app.
      rewrite (count_events_none _ tail Hquiet).
      change (count_events _ [_; _]) with 0. lia.
    - rewrite Htail, Ht, H0. now rewrite <- !app_assoc. }
  split; [| split; [exact Hrun |]].
  - intros urls. destruct (Hloop urls w) as (t & Ht & Hb).
    now rewrite (new_events_app _ _ _ Ht).
  - intros Hset. etransitivity; [exact Hrun |].
    destruct (Hset (tick w) (image_urls w)) as [Hnd Hiff].
    apply NoDup_incl_length; [exact Hnd |].
    intros x Hx. now apply Hiff.
Qed.

Lemma run_requests_at_most_working_set_witness :
  requests (new_events world_two_images
              (world_after (migrate_metadata (mock_env api_titles)) world_two_images))
  <= 3.
Proof.
  apply (run_requests_at_most_working_set (mock_env api_titles) world_two_images).
  apply mock_env_set_semantics.
Defined.

(** ** The shape of a run *)


Section DriverRuns.
Variable P : event -> Prop.
Variable writes : bool.
Variable E : env.
Hypothesis P_log : forall lvl msg, P (EvLog lvl msg).
Hypothesis P_delay : P (EvSleep DELAY).
Hypothesis P_batch : forall batch, respects (evolves P writes) (process_batch E batch).


End DriverRuns.





(** ** Missing credentials *)








(** ** The answers of the remote API *)

Lemma metadata_of_response_not_null r :
  metadata_of_response r <> JNull ->
  exists data,
    r = HttpResponse 200 (Ret (JObj data)) /\ truthy (success_flag data) = true.
Proof.
  unfold metadata_of_response, read_metadata, success_flag.
  destruct r as [status body|e]; [| congruence].
  destruct (status =? 200)%nat eqn:Hs; [| congruence].
  apply Nat.eqb_eq in Hs. subst status.
  destruct body as [[| | | | |data]|e]; cbn [py_get]; try congruence.
  destruct (truthy _) eqn:Ht; [| congruence].
  intros _. now exists data.
Qed.

Lemma sleeps_after_events id r :
  count_events is_sleep (response_events id r) = sleeps_after r.
Proof.
  unfold response_events, sleeps_after.
  destruct r as [status body|e]; [| reflexivity].
  destruct (status =? 200)%nat eqn:H200.
  - apply Nat.eqb_eq in H200. subst status.
    now destruct (read_metadata body).
  - now destruct (status =? 429)%nat.
Qed.

(** X7. With the credentials set, a call of the fetcher issues exactly
    one request, the first thing it does, to the endpoint of the
    identifier; it never raises and leaves both collections as they were.
    It returns something only for an answer 200 whose body is a mapping
    with a true success flag, and it sleeps (once) only after an answer
    429. *)
Theorem fetcher_one_request (E : env) (image_id : string) (w : world) :
  creds_set E = true ->
  (exists r, result_of (get_cloudflare_metadata E image_id) w = Ret r)
  /\ requests (new_events w (world_after (get_cloudflare_metadata E image_id) w)) = 1
  /\ hd_error (new_events w (world_after (get_cloudflare_metadata E image_id) w))
     = Some (EvHttpGet (api_url E image_id) (api_headers E))
  /\ db_cars (world_after (get_cloudflare_metadata E image_id) w) = db_cars w
  /\ db_image_metadata (world_after (get_cloudflare_metadata E image_id) w)
     = db_image_metadata w
  /\ (result_of (get_cloudflare_metadata E image_id) w <> Ret JNull ->
      exists data,
        http_get E (tick w) (api_url E image_id) (api_headers E)
        = HttpResponse 200 (Ret (JObj data))
        /\ truthy (success_flag data) = true)
  /\ count_events is_sleep
       (new_events w (world_after (get_cloudflare_metadata E image_id) w))
     = sleeps_after (http_get E (tick w) (api_url E image_id) (api_headers E)).
Proof.
  intros Hc. unfold result_of, world_after.
  rewrite (get_cloudflare_metadata_eq E image_id w Hc). cbn [fst snd].
  set (r := http_get E (tick w) (api_url E image_id) (api_headers E)).
  rewrite (new_events_app w _ (EvHttpGet (api_url E image_id) (api_headers E)
                               :: response_events image_id r)) by reflexivity.
  split; [eauto |]. split; [| split; [reflexivity |]].
  - unfold requests.
    change (?x :: ?l) with ([x] ++ l). rewrite count_events_app.
    rewrite (count_events_none is_request (response_events _ _)); [reflexivity |].
    apply response_events_quiet; reflexivity.
  - split; [reflexivity |]. split; [reflexivity |]. split.
    + intros Hnn. apply metadata_of_response_not_null. congruence.
    + change (?x :: ?l) with ([x] ++ l). rewrite count_events_app.
      apply sleeps_after_events.
Qed.

Lemma fetcher_one_request_witness :
  requests (new_events empty_world
              (world_after (get_cloudflare_metadata (mock_env api_rate_limited) "img1")
                           empty_world)) = 1
  /\ count_events is_sleep
       (new_events empty_world
          (world_after (get_cloudflare_metadata (mock_env api_rate_limited) "img1")
                       empty_world)) = 1.
Proof.
  destruct (fetcher_one_request (mock_env api_rate_limited) "img1" empty_world eq_refl)
    as (_ & Hone & _ & _ & _ & _ & Hsleep).
  split; [exact Hone | exact Hsleep].
Defined.

Lemma fetch_200 E image_id w body :
  creds_set E = true ->
  http_get E (tick w) (api_url E image_id) (api_headers E)
  = HttpResponse 200 (Ret body) ->
  fetch_result E image_id w
  = Ret (match read_metadata (Ret body) with Ret m => m | Raise _ => JNull end)
  /\ fetch_events E image_id w
     = EvHttpGet (api_url E image_id) (api_headers E)
       :: match read_metadata (Ret body) with
          | Ret _ => []
          | Raise e => [EvLog ERROR (LogFetchException image_id e)]
          end.
Proof.
  intros Hc Hresp. unfold fetch_result, fetch_events, result_of, world_after.
  rewrite (get_cloudflare_metadata_eq E image_id w Hc), Hresp. cbn [fst snd].
  split; [reflexivity |]. now apply new_events_app.
Qed.

(** X8. With the credentials set and an answer 200 with a JSON body:
    a body that is not a mapping, or whose [result] is present but not a
    mapping (null, say), makes the fetcher log the attribute error and
    return nothing; a false or missing success flag makes it return
    nothing without any log line; with a true flag and a [result] mapping
    that has a [metadata] field, the fetcher returns that field as it is,
    whatever it holds. *)
Theorem fetcher_reads_the_body (E : env) (image_id : string) (w : world) (body : json) :
  creds_set E = true ->
  http_get E (tick w) (api_url E image_id) (api_headers E)
  = HttpResponse 200 (Ret body) ->
  (is_mapping body = false ->
   fetch_result E image_id w = Ret JNull
   /\ fetch_events E image_id w
      = [EvHttpGet (api_url E image_id) (api_headers E);
         EvLog ERROR (LogFetchException image_id AttributeError)])
  /\ forall data, body = JObj data ->
       (truthy (success_flag data) = false ->
        fetch_result E image_id w = Ret JNull
        /\ fetch_events E image_id w
           = [EvHttpGet (api_url E image_id) (api_headers E)])
       /\ (truthy (success_flag data) = true ->
           (forall v, dict_get "result" data = Some v -> is_mapping v = false ->
              fetch_result E image_id w = Ret JNull
              /\ fetch_events E image_id w
                 = [EvHttpGet (api_url E image_id) (api_headers E);
                    EvLog ERROR (LogFetchException image_id AttributeError)])
           /\ (forall result metadata,
                 dict_get "result" data = Some (JObj result) ->
                 dict_get "metadata" result = Some metadata ->
                 fetch_result E image_id w = Ret metadata
                 /\ fetch_events E image_id w
                    = [EvHttpGet (api_url E image_id) (api_headers E)])).
Proof.
  intros Hc Hresp.
  destruct (fetch_200 E image_id w body Hc Hresp) as [Hr He].
  rewrite Hr, He. clear Hr He. unfold read_metadata. split.
  - intros Hm. destruct body; try discriminate; split; reflexivity.
  - intros data ->. cbn [py_get]. fold (success_flag data). split.
    + intros ->. split; reflexivity.
    + intros ->. split.
      * intros v -> Hm. destruct v; try discriminate; split; reflexivity.
      * intros result metadata -> . cbn [py_get]. intros ->. split; reflexivity.
Qed.

Lemma fetcher_reads_the_body_witness :
  fetch_result (mock_env api_null_result) "img1" empty_world = Ret JNull
  /\ fetch_events (mock_env api_null_result) "img1" empty_world
     = [EvHttpGet (api_url (mock_env api_null_result) "img1")
                  (api_headers (mock_env api_null_result));
        EvLog ERROR (LogFetchException "img1" AttributeError)].
Proof.
  destruct (fetcher_reads_the_body (mock_env api_null_result) "img1" empty_world
              (JObj [("success", JBool true); ("result", JNull)]) eq_refl eq_refl)
    as (_ & H).
  destruct (H _ eq_refl) as (_ & Htrue).
  destruct (Htrue eq_refl) as (Hbad & _).
  apply (Hbad JNull); reflexivity.
Defined.

(** ** The loops of a batch *)



Lemma extract_image_id_world E url w :
  db_cars (world_after (extract_image_id E url) w) = db_cars w
  /\ db_image_metadata (world_after (extract_image_id E url) w) = db_image_metadata w
  /\ tick (world_after (extract_image_id E url) w) = tick w
  /\ trace (world_after (extract_image_id E url) w) = trace w ++ extract_log E url.
Proof.
  unfold world_after, extract_image_id, try_except, lift, extract_log.
  destruct (extract_image_id_body E url); cbn; repeat split; auto.
  now rewrite app_nil_r.
Qed.

Lemma store_result_mapping_eq E url f fs w :
  store_result E url (JObj (f :: fs)) w
  = (Ret tt,
     let w1 := world_after (extract_image_id E url) w in
     let doc := record_at E (image_id_of E url) (f :: fs) (tick w1) in
     if insert_fails E (S (S (tick w1))) doc
     then mkWorld (db_cars w1) (db_image_metadata w1)
                  (trace w1 ++ [EvLog ERROR (LogStoreError (image_id_of E url) StorageError)])
                  (S (S (S (tick w1))))
     else mkWorld (db_cars w1) (db_image_metadata w1 ++ [doc])
                  (trace w1 ++ [EvLog INFO (LogStored (image_id_of E url))])
                  (S (S (S (tick w1))))).
Proof.
  unfold store_result. cbn [truthy].
  rewrite (bind_ret_eq _ _ _ _ _ (extract_image_id_eq E url w)).
  set (w1 := world_after (extract_image_id E url) w).
  unfold try_except, bind, new_record, bind, time_now, bind, next_tick, ret,
    insert_one, bind, next_tick.
  cbn [tick db_cars db_image_metadata trace fst snd].
  fold (record_at E (image_id_of E url) (f :: fs) (tick w1)).
  cbv zeta.
  destruct (insert_fails E (S (S (tick w1))) _); reflexivity.
Qed.

(** The second loop on a non-empty mapping: the clock is read twice, the
    document is built, and the insert either fails or appends it. *)
Lemma store_result_mapping E url f fs w :
  let doc := record_at E (image_id_of E url) (f :: fs) (tick w) in
  let failed := insert_fails E (S (S (tick w))) doc in
  result_of (store_result E url (JObj (f :: fs))) w = Ret tt
  /\ db_cars (world_after (store_result E url (JObj (f :: fs))) w) = db_cars w
  /\ db_image_metadata (world_after (store_result E url (JObj (f :: fs))) w)
     = db_image_metadata w ++ (if failed then [] else [doc])
  /\ tick (world_after (store_result E url (JObj (f :: fs))) w) = S (S (S (tick w)))
  /\ trace (world_after (store_result E url (JObj (f :: fs))) w)
     = trace w ++ extract_log E url
       ++ [if failed then EvLog ERROR (LogStoreError (image_id_of E url) StorageError)
           else EvLog INFO (LogStored (image_id_of E url))].
Proof.
  intros doc failed.
  destruct (extract_image_id_world E url w) as (Hc & Hs & Ht & Htr).
  unfold result_of, world_after at 1 2 3 4.
  rewrite store_result_mapping_eq. cbv zeta. cbn [fst snd].
  rewrite Ht. fold doc. fold failed.
  destruct failed; cbn [tick db_cars db_image_metadata trace];
    rewrite ?Hc, ?Hs, ?Ht, ?Htr, ?app_nil_r, <- ?app_assoc; repeat split; reflexivity.
Qed.

Lemma store_result_not_mapping E url md w :
  truthy md = true -> is_mapping md = false ->
  result_of (store_result E url md) w = Ret tt
  /\ db_image_metadata (world_after (store_result E url md) w) = db_image_metadata w
  /\ tick (world_after (store_result E url md) w) = tick w
  /\ trace (world_after (store_result E url md) w)
     = trace w ++ extract_log E url
       ++ [EvLog ERROR (LogStoreError (image_id_of E url) TypeError)].
Proof.
  intros Ht Hm.
  destruct (extract_image_id_world E url w) as (Hc & Hs & Hk & Htr).
  unfold result_of, world_after at 1 2 3. unfold store_result. rewrite Ht.
  rewrite (bind_ret_eq _ _ _ _ _ (extract_image_id_eq E url w)).
  set (w1 := world_after (extract_image_id E url) w) in *.
  destruct md; try discriminate;
    cbn; rewrite ?Hs, ?Hk, ?Htr, <- ?app_assoc; repeat split; reflexivity.
Qed.

(** X10. The second loop of a batch recovers from every error of a
    result and goes on with the next one.  An empty or absent result is
    skipped; a result that is not a mapping cannot be spread into a
    document: the type error is logged, the clock is not read and nothing
    is inserted; a failing insert is logged and leaves the collection as
    it was.  In every case the loop body returns and the loop continues
    with the remaining results. *)
Theorem second_loop_recovers (E : env) (url : string) (metadata : json) (w : world) :
  result_of (store_result E url metadata) w = Ret tt
  /\ (truthy metadata = false -> store_result E url metadata w = (Ret tt, w))
  /\ (truthy metadata = true -> is_mapping metadata = false ->
      db_image_metadata (world_after (store_result E url metadata) w)
      = db_image_metadata w
      /\ tick (world_after (store_result E url metadata) w) = tick w
      /\ trace (world_after (store_result E url metadata) w)
         = trace w ++ extract_log E url
           ++ [EvLog ERROR (LogStoreError (image_id_of E url) TypeError)])
  /\ (forall fields,
        metadata = JObj fields -> truthy metadata = true ->
        insert_fails E (S (S (tick w)))
                     (record_at E (image_id_of E url) fields (tick w)) = true ->
        db_image_metadata (world_after (store_result E url metadata) w)
        = db_image_metadata w
        /\ trace (world_after (store_result E url metadata) w)
           = trace w ++ extract_log E url
             ++ [EvLog ERROR (LogStoreError (image_id_of E url) StorageError)])
  /\ forall rest,
      result_of (store_results E ((url, metadata) :: rest)) w = Ret tt
      /\ world_after (store_results E ((url, metadata) :: rest)) w
         = world_after (store_results E rest)
                       (world_after (store_result E url metadata) w).
Proof.
  split; [apply store_result_returns |]. split; [| split; [| split]].
  - intros Ht. unfold store_result. now rewrite Ht.
  - intros Ht Hm. now destruct (store_result_not_mapping E url metadata w Ht Hm)
      as (_ & ? & ? & ?).
  - intros fields -> Ht Hfail. destruct fields as [|f fs]; [discriminate |].
    destruct (store_result_mapping E url f fs w) as (_ & _ & Hs & _ & Htr).
    rewrite Hs, Htr, Hfail. split; [apply app_nil_r | reflexivity].
  - intros rest. split; [apply store_results_returns | apply store_results_step].
Qed.

Lemma second_loop_recovers_witness :
  db_image_metadata
    (world_after (store_result (mock_env api_text) url_img1 (JStr "a caption"))
                 empty_world) = []
  /\ db_image_metadata
       (world_after (store_result (env_refusing "img1" api_titles) url_img1
                                  (JObj [("title", JStr "img1")]))
                    empty_world) = [].
Proof.
  destruct (second_loop_recovers (mock_env api_text) url_img1 (JStr "a caption")
              empty_world) as (_ & _ & Htype & _).
  destruct (second_loop_recovers (env_refusing "img1" api_titles) url_img1
              (JObj [("title", JStr "img1")]) empty_world) as (_ & _ & _ & Hfail & _).
  split.
  - apply Htype; reflexivity.
  - apply (Hfail [("title", JStr "img1")]); reflexivity.
Defined.

(** ** The stored document *)

Lemma dict_get_absent k d : ~ In k (map fst d) -> dict_get k d = None.
Proof.
  induction d as [|[k0 v0] rest IH]; intros H; [reflexivity |].
  cbn [dict_get]. destruct (k0 =? k) eqn:Hk.
  - apply String.eqb_eq in Hk. subst. exfalso. apply H. now left.
  - apply IH. intros Hin. apply H. now right.
Qed.

(** [{**d, **extra}] holds the values of [extra] and, for the other keys,
    those of [d]. *)
Lemma dict_get_update k d extra :
  unique_keys extra ->
  dict_get k (dict_update d extra)
  = match dict_get k extra with
    | Some v => Some v
    | None => dict_get k d
    end.
Proof.
  unfold unique_keys, dict_update. revert d.
  induction extra as [|[k1 v1] rest IH]; intros d Hnd; [reflexivity |].
  cbn [map fst] in Hnd. inversion Hnd as [|? ? Hnotin Hnd']; subst.
  cbn [fold_left fst snd dict_get]. rewrite (IH _ Hnd'), dict_get_set.
  destruct (k1 =? k) eqn:Hk; [| reflexivity].
  apply String.eqb_eq in Hk. subst k1. now rewrite (dict_get_absent k rest Hnotin).
Qed.

(** X11. The document that the second loop inserts for a mapping.  Its
    [createdAt] and [updatedAt] fields are the two readings of the clock,
    whatever the metadata holds under these names.  Every other field of
    the metadata is stored as it is; in particular an [imageId] field of
    the metadata takes the place of the identifier of the URL, which is
    stored only when the metadata has no such field. *)
Theorem stored_document (E : env) (image_id : option string) (fields : dict) (w : world) :
  result_of (new_record E image_id (JObj fields)) w
  = Ret (record_at E image_id fields (tick w))
  /\ dict_get "createdAt" (record_at E image_id fields (tick w))
     = Some (JNum (time_time E (tick w)))
  /\ dict_get "updatedAt" (record_at E image_id fields (tick w))
     = Some (JNum (time_time E (S (tick w))))
  /\ (unique_keys fields ->
      forall k, k <> "createdAt" -> k <> "updatedAt" ->
        dict_get k (record_at E image_id fields (tick w))
        = match dict_get k fields with
          | Some v => Some v
          | None => if k =? "imageId" then Some (py_opt_str image_id) else None
          end).
Proof.
  split; [reflexivity |]. unfold record_at. split; [| split].
  - now rewrite !dict_get_set.
  - now rewrite dict_get_set.
  - intros Hu k Hc Hup. rewrite !dict_get_set.
    apply not_eq_sym in Hc, Hup.
    apply String.eqb_neq in Hc, Hup. rewrite Hc, Hup.
    rewrite (dict_get_update k _ fields Hu).
    destruct (dict_get k fields); [reflexivity |].
    cbn [dict_get]. now rewrite String.eqb_sym.
Qed.

Lemma stored_document_witness :
  dict_get "imageId"
    (record_at (mock_env api_titles) (Some "img1")
       [("title", JStr "t"); ("imageId", JStr "other")] 0)
  = Some (JStr "other").
Proof.
  destruct (stored_document (mock_env api_titles) (Some "img1")
              [("title", JStr "t"); ("imageId", JStr "other")] empty_world)
    as (_ & _ & _ & H).
  apply (H ltac:(repeat constructor; simpl; intuition discriminate) "imageId");
    discriminate.
Defined.

Lemma record_at_image_id E image_id fields t :
  keeps_id (JObj fields) = true ->
  dict_get "imageId" (record_at E image_id fields t) = Some (py_opt_str image_id).
Proof.
  intros Hk. unfold record_at. rewrite !dict_get_set. cbn [String.eqb Ascii.eqb Bool.eqb].
  rewrite dict_get_update_other; [reflexivity |].
  unfold keeps_id in Hk. now destruct (dict_get "imageId" fields).
Qed.

(** X12. Insert, then look up.  When the second loop stores a result
    for a URL (a non-empty mapping without an [imageId] field of its own,
    an identifier that is not empty, an insert that does not fail), the
    identifier has one record more, the existence check finds it from then
    on, and no later batch creates a fetch task for that identifier,
    however the collection has grown in between. *)
Theorem stored_url_is_skipped (E : env) (url : string) (f : string * json)
    (fs : dict) (w : world) :
  usable (image_id_of E url) = true ->
  keeps_id (JObj (f :: fs)) = true ->
  insert_fails E (S (S (tick w)))
               (record_at E (image_id_of E url) (f :: fs) (tick w)) = false ->
  records_of (db_image_metadata (world_after (store_result E url (JObj (f :: fs))) w))
             (ident E url)
  = S (records_of (db_image_metadata w) (ident E url))
  /\ forall more batch,
      has_record
        (db_image_metadata (world_after (store_result E url (JObj (f :: fs))) w) ++ more)
        (ident E url) = true
      /\ ~ In (ident E url)
           (tasks_of E
              (db_image_metadata (world_after (store_result E url (JObj (f :: fs))) w)
               ++ more)
              batch).
Proof.
  intros Hu Hk Hok.
  destruct (store_result_mapping E url f fs w) as (_ & _ & Hs & _ & _).
  rewrite Hok in Hs. rewrite Hs.
  assert (Hid : dict_get "imageId" (record_at E (image_id_of E url) (f :: fs) (tick w))
                = Some (JStr (ident E url))).
  { rewrite record_at_image_id by exact Hk. now rewrite (usable_some E url Hu). }
  split.
  - rewrite records_of_app. unfold records_of at 2. cbn [filter].
    unfold matches_image_id.
    rewrite Hid, String.eqb_refl. cbn [length]. lia.
  - intros more batch.
    assert (Hrec : has_record
                     ((db_image_metadata w
                       ++ [record_at E (image_id_of E url) (f :: fs) (tick w)]) ++ more)
                     (ident E url) = true).
    { apply has_record_iff. eexists. split; [| exact Hid].
      apply in_or_app. left. apply in_or_app. right. now left. }
    split; [exact Hrec |].
    intros Hin. apply in_tasks_of in Hin as (_ & _ & _ & _ & Hno). congruence.
Qed.

Lemma stored_url_is_skipped_witness :
  records_of
    (db_image_metadata
       (world_after (store_result (mock_env api_titles) url_img1
                                  (JObj [("title", JStr "img1")]))
                    empty_world))
    "img1" = 1.
Proof.
  apply (stored_url_is_skipped (mock_env api_titles) url_img1
           ("title", JStr "img1") [] empty_world); reflexivity.
Defined.

(** ** What a batch inserts *)






(** ** Failed inserts *)





(** ** The identifier in the text of the path *)

Lemma length_split_on sep s : length (split_on sep s) = S (occurrences sep s).
Proof.
  induction s as [|c rest IH]; [reflexivity |]. cbn [split_on occurrences].
  destruct (Ascii.eqb c sep); cbn [length]; [now rewrite IH |].
  destruct (split_on sep rest); cbn [length] in *; [discriminate | exact IH].
Qed.

Lemma split_on_pieces sep s :
  Forall (fun p => occurrences sep p = 0) (split_on sep s).
Proof.
  induction s as [|c rest IH]; cbn [split_on]; [now constructor |].
  destruct (Ascii.eqb c sep) eqn:Hc; [now constructor |].
  destruct (split_on sep rest) as [|h t].
  - constructor; [| constructor]. cbn [occurrences]. now rewrite Hc.
  - inversion IH as [|? ? Hh Ht]; subst. constructor; [| exact Ht].
    cbn [occurrences]. now rewrite Hc.
Qed.

Lemma concat_cons sep x l :
  l <> [] -> String.concat sep (x :: l) = (x ++ sep ++ String.concat sep l)%string.
Proof. destruct l; [contradiction | reflexivity]. Qed.

Lemma concat_split_on sep s :
  String.concat (String sep EmptyString) (split_on sep s) = s.
Proof.
  induction s as [|c rest IH]; [reflexivity |]. cbn [split_on].
  assert (Hne : split_on sep rest <> []).
  { intros H. pose proof (length_split_on sep rest) as Hl.
    rewrite H in Hl. discriminate. }
  destruct (Ascii.eqb c sep) eqn:Hc.
  - apply Ascii.eqb_eq in Hc. subst c.
    rewrite (concat_cons _ _ _ Hne), IH. reflexivity.
  - destruct (split_on sep rest) as [|h t]; [contradiction |].
    destruct t as [|h' t']; [cbn in *; now rewrite IH |].
    assert (Hne' : h' :: t' <> []) by discriminate.
    rewrite (concat_cons _ _ _ Hne') in *. rewrite <- IH. reflexivity.
Qed.

(** X15. Where the identifier lies in the path.  When [urlparse] gives a
    path, extraction yields nothing exactly when the path has fewer than
    four slashes.  An identifier it yields holds no slash and is the
    piece of the path that follows its fourth slash: the path is four
    slash-free pieces, the identifier and further slash-free pieces,
    joined by slashes. *)
Theorem identifier_in_path (E : env) (url path : string) :
  urlparse_path E url = Ret path ->
  (image_id_of E url = None <-> occurrences "/" path < 4)
  /\ (forall image_id, image_id_of E url = Some image_id ->
        occurrences "/" image_id = 0
        /\ exists before after,
             length before = 4
             /\ Forall (fun p => occurrences "/" p = 0) (before ++ after)
             /\ path = String.concat "/" (before ++ image_id :: after)).
Proof.
  intros Hp. unfold image_id_of, extract_image_id_body. rewrite Hp.
  pose proof (length_split_on "/" path) as Hl.
  pose proof (split_on_pieces "/" path) as Hf.
  pose proof (concat_split_on "/" path) as Hc.
  destruct (5 <=? length (split_on "/" path))%nat eqn:Hb.
  - apply Nat.leb_le in Hb. split.
    + split; [| lia]. intros Hn. apply nth_error_None in Hn. lia.
    + intros id Hid. apply nth_error_split in Hid as (before & after & Heq & Hlen).
      rewrite Heq in Hf, Hc.
      apply Forall_app in Hf as (Hb1 & Hb2).
      inversion Hb2 as [|? ? Hi Ha]; subst.
      split; [exact Hi |]. exists before, after.
      split; [exact Hlen |]. split; [apply Forall_app; now split | now symmetry].
  - apply Nat.leb_gt in Hb. split; [split; [lia | reflexivity] | discriminate].
Qed.

Lemma identifier_in_path_witness :
  (image_id_of (mock_env api_down) url_img1 = None
   <-> occurrences "/" "/cdn-cgi/imagedelivery/acct/img1/public" < 4)
  /\ (image_id_of (mock_env api_down) url_short = None
      <-> occurrences "/" "/acct/img1/public" < 4).
Proof.
  split.
  - apply (identifier_in_path (mock_env api_down) url_img1
             "/cdn-cgi/imagedelivery/acct/img1/public"). reflexivity.
  - apply (identifier_in_path (mock_env api_down) url_short "/acct/img1/public").
    reflexivity.
Defined.
